(** * rt::TcpConn / rt::UdpConn (caladan/bindings/cc/net.h)

    A shallow embedding of the exact-length and vectored I/O layer of
    [net.h], and the properties of it that the specification states.

    - Process memory is a flat map from addresses to bytes; [memcpy] and
      the transport primitives update it.  The scratch buffer [buf_] of a
      [TcpConn] is a region of that same memory.
    - [size_t] and [ssize_t] are 64-bit; values are integers of [Z] and
      every wrap-around of the source is written out.
    - The functions of the runtime ([__tcp_read], [udp_read], ...) are
      declared in headers that [net.h] includes; they are taken as
      parameters (records [tcp_runtime] and [udp_runtime]).
    - Every call of a runtime primitive and of [memcpy] is appended to a
      log, so that "which calls are issued, in which order" can be
      stated.
    - The two [while] loops take a fuel argument; the theorems say how
      much fuel is enough. *)

From Stdlib Require Import ZArith List Bool Lia.
From Stdlib Require Import Strings.Byte.
Import ListNotations.
Open Scope Z_scope.

Set Implicit Arguments.

(** ** Machine integers *)

Definition SIZE_MOD : Z := 2 ^ 64.
Definition SSIZE_MAX : Z := 2 ^ 63 - 1.

(** Arithmetic on [std::size_t] is modulo [2^64]. *)
Definition to_size (z : Z) : Z := z mod SIZE_MOD.

(** Conversion of a [size_t] to [ssize_t] (the [return n] of the full
    transfers). *)
Definition to_ssize (z : Z) : Z :=
  let u := to_size z in if u <=? SSIZE_MAX then u else u - SIZE_MOD.

(** ** Memory *)

Definition addr := Z.
Definition mem := addr -> byte.

(** The [len] bytes at [p]. *)
Definition load (m : mem) (p : addr) (len : Z) : list byte :=
  map (fun i => m (p + Z.of_nat i)) (seq 0 (Z.to_nat len)).

(** [memcpy(dst, src, n)].  (Overlapping ranges are undefined behaviour
    in C; here every byte of the destination gets the byte the source
    held before the call.) *)
Definition mem_copy (m : mem) (dst src : addr) (n : Z) : mem :=
  fun a => if (dst <=? a) && (a <? dst + n) then m (src + (a - dst)) else m a.

(** What a receive primitive does to memory: the bytes [data] it
    delivers are written at [p], and never more than the [len] bytes of
    the buffer it was given. *)
Definition store (m : mem) (p : addr) (len : Z) (data : list byte) : mem :=
  fun a =>
    if (p <=? a) && (a <? p + Z.min len (Z.of_nat (length data)))
    then nth (Z.to_nat (a - p)) data x00
    else m a.

(** [struct iovec]. *)
Record iovec : Type := { iov_base : addr; iov_len : Z }.

(** A vectored receive fills the segments in list order. *)
Fixpoint store_iov (m : mem) (iov : list iovec) (data : list byte) : mem :=
  match iov with
  | [] => m
  | s :: rest =>
      store_iov (store m (iov_base s) (iov_len s) data) rest
                (skipn (Z.to_nat (iov_len s)) data)
  end.

(** [std::span<const iovec, Extent>]: the extent is part of the type.  A
    [FixedSpan] has the static extent [length l]. *)
Inductive span : Type :=
| FixedSpan (l : list iovec)
| DynSpan (l : list iovec).

(** ** Calls that leave the translation unit *)

Inductive event : Type :=
| EvMemcpy (dst src : addr) (n : Z)
| EvTcpRead (buf : addr) (len : Z) (nt poll : bool) (ret : Z)
| EvTcpWrite (buf : addr) (len : Z) (nt poll : bool) (ret : Z)
| EvTcpReadv (iov : list iovec) (nt poll : bool) (ret : Z)
| EvTcpWritev (iov : list iovec) (nt poll : bool) (ret : Z)
| EvUdpRead (buf : addr) (len : Z) (ret : Z)
| EvUdpWrite (buf : addr) (len : Z) (ret : Z).

(** The state a call runs in: memory, the runtime's connection behind the
    handle [c_], and the log of calls so far. *)
Record world (C : Type) : Type := mkWorld {
  heap : mem;
  c_ : C;
  log : list event
}.

(** ** The monad of the embedding: state, fatal stop, fuel *)

Inductive outcome (S A : Type) : Type :=
| Done (a : A) (s : S)      (* the call returned [a] *)
| Fatal (s : S)             (* the process was aborted in state [s] *)
| Stuck.                    (* the fuel of a loop ran out *)

Arguments Done {S A} a s.
Arguments Fatal {S A} s.
Arguments Stuck {S A}.

Definition M (S A : Type) : Type := S -> outcome S A.

Definition mret {S A} (a : A) : M S A := fun s => Done a s.

Definition bind {S A B} (m : M S A) (k : A -> M S B) : M S B :=
  fun s => match m s with
           | Done a s' => k a s'
           | Fatal s' => Fatal s'
           | Stuck => Stuck
           end.

Declare Scope io_scope.
Delimit Scope io_scope with io.
Notation "x <- m ;; k" := (bind m (fun x => k))
  (at level 100, m at next level, right associativity) : io_scope.
Notation "m ;;; k" := (bind m (fun _ => k))
  (at level 100, right associativity) : io_scope.
Open Scope io_scope.

Definition abort {S A} : M S A := fun s => Fatal s.
Definition out_of_fuel {S A} : M S A := fun _ => Stuck.

(** Modelled from the spec: [assert] is a macro of a header outside this
    file.  Following sections 4.1 and 7 of the specification a failed
    assertion is fatal: the process is aborted.  (A build that defines
    [NDEBUG] compiles the check away; that build is not modelled.) *)
Definition assert {S} (cond : bool) : M S unit :=
  if cond then mret tt else abort.

(** Modelled from the spec: [BUG_ON] is a macro of the runtime's base
    headers, outside this file; [BUG_ON(cond)] aborts the process when
    [cond] holds. *)
Definition BUG_ON {S} (cond : bool) : M S unit :=
  if cond then abort else mret tt.

(** The state an outcome ends in, when there is one. *)
Definition final {S A} (o : outcome S A) : option S :=
  match o with
  | Done _ s => Some s
  | Fatal s => Some s
  | Stuck => None
  end.

(** [memcpy] as a logged memory update. *)
Definition memcpy {C} (dst src : addr) (n : Z) : M (world C) unit :=
  fun w => Done tt {| heap := mem_copy (heap w) dst src n;
                      c_ := c_ w;
                      log := log w ++ [EvMemcpy dst src n] |}.

(** ** namespace detail *)

Module detail.

(** [general_scatter_gather<Scatter, Extent>(buf, offset, iov)]: the
    template recursion on [Extent] is the recursion on the list. *)
Fixpoint general_scatter_gather {C} (Scatter : bool) (buf : addr)
         (offset : Z) (iov : list iovec) : M (world C) unit :=
  match iov with
  | [] => mret tt
  | iovec :: last =>
      (if Scatter
       then memcpy (iov_base iovec) (buf + offset) (iov_len iovec)
       else memcpy (buf + offset) (iov_base iovec) (iov_len iovec)) ;;;
      general_scatter_gather Scatter buf (to_size (offset + iov_len iovec)) last
  end.

Definition scatter_to {C} (buf : addr) (iov : list iovec) : M (world C) unit :=
  general_scatter_gather true buf 0 iov.

Definition gather_from {C} (buf : addr) (iov : list iovec) : M (world C) unit :=
  general_scatter_gather false buf 0 iov.

End detail.

(** ** class NetConn: the interface both connection kinds implement

    (The default arguments [nt = false], [poll = false] of the source
    are written out at every call.) *)

Module NetConn.
Class NetConn (C : Type) : Type := {
  Read : addr -> Z -> bool -> bool -> M (world C) Z;
  Write : addr -> Z -> bool -> bool -> M (world C) Z
}.
End NetConn.

(** ** class UdpConn *)

(** The datagram primitives of [runtime/udp.h], which take no hints.  A
    receive is given the length of the buffer and answers with its
    return value, the bytes it delivers and the connection's next state;
    a send is given the bytes of the buffer. *)
Record udp_runtime : Type := {
  udpconn_t : Type;
  udp_read_op : udpconn_t -> Z -> Z * list byte * udpconn_t;
  udp_write_op : udpconn_t -> list byte -> Z * udpconn_t
}.

Module UdpConn.
Section WithRuntime.
Variable rt : udp_runtime.
Local Abbreviation world := (world (udpconn_t rt)).

Definition udp_read (buf : addr) (len : Z) : M world Z := fun w =>
  let '(r, data, c') := udp_read_op rt (c_ w) len in
  Done r {| heap := store (heap w) buf len data;
            c_ := c';
            log := log w ++ [EvUdpRead buf len r] |}.

Definition udp_write (buf : addr) (len : Z) : M world Z := fun w =>
  let '(r, c') := udp_write_op rt (c_ w) (load (heap w) buf len) in
  Done r {| heap := heap w;
            c_ := c';
            log := log w ++ [EvUdpWrite buf len r] |}.

(** [UdpConn::Read]. *)
Definition Read (buf : addr) (len : Z) (nt poll : bool) : M world Z :=
  BUG_ON (nt || poll) ;;;
  udp_read buf len.

(** [UdpConn::Write]. *)
Definition Write (buf : addr) (len : Z) (nt poll : bool) : M world Z :=
  BUG_ON (nt || poll) ;;;
  udp_write buf len.

#[export] Instance UdpConn_NetConn : NetConn.NetConn (udpconn_t rt) :=
  {| NetConn.Read := Read; NetConn.Write := Write |}.

End WithRuntime.
End UdpConn.

(** ** class TcpConn *)

(** The stream primitives of [runtime/tcp.h].  A receive is given the
    length(s) of the buffer(s) and the two hints and answers with its
    return value, the bytes it delivers and the connection's next state;
    a send is given the bytes of the buffer(s) and the hints. *)
Record tcp_runtime : Type := {
  tcpconn_t : Type;
  tcp_read_op : tcpconn_t -> Z -> bool -> bool -> Z * list byte * tcpconn_t;
  tcp_write_op : tcpconn_t -> list byte -> bool -> bool -> Z * tcpconn_t;
  tcp_readv_op : tcpconn_t -> list Z -> bool -> bool -> Z * list byte * tcpconn_t;
  tcp_writev_op : tcpconn_t -> list (list byte) -> bool -> bool -> Z * tcpconn_t
}.

Module TcpConn.

Definition kIOVCopyThresh : Z := 128.

(** [std::accumulate] over the lengths, in [std::size_t]. *)
Definition accumulate (iov : list iovec) : Z :=
  fold_left (fun s a => to_size (s + iov_len a)) iov 0.

Section WithRuntime.
Variable rt : tcp_runtime.
(** The address of the member [buf_] (of [kIOVCopyThresh] bytes). *)
Variable buf_ : addr.
Local Abbreviation world := (world (tcpconn_t rt)).

Definition __tcp_read (buf : addr) (len : Z) (nt poll : bool) : M world Z :=
  fun w =>
    let '(r, data, c') := tcp_read_op rt (c_ w) len nt poll in
    Done r {| heap := store (heap w) buf len data;
              c_ := c';
              log := log w ++ [EvTcpRead buf len nt poll r] |}.

Definition __tcp_write (buf : addr) (len : Z) (nt poll : bool) : M world Z :=
  fun w =>
    let '(r, c') := tcp_write_op rt (c_ w) (load (heap w) buf len) nt poll in
    Done r {| heap := heap w;
              c_ := c';
              log := log w ++ [EvTcpWrite buf len nt poll r] |}.

Definition __tcp_readv (iov : list iovec) (nt poll : bool) : M world Z :=
  fun w =>
    let '(r, data, c') := tcp_readv_op rt (c_ w) (map iov_len iov) nt poll in
    Done r {| heap := store_iov (heap w) iov data;
              c_ := c';
              log := log w ++ [EvTcpReadv iov nt poll r] |}.

Definition __tcp_writev (iov : list iovec) (nt poll : bool) : M world Z :=
  fun w =>
    let '(r, c') :=
      tcp_writev_op rt (c_ w)
                    (map (fun s => load (heap w) (iov_base s) (iov_len s)) iov)
                    nt poll in
    Done r {| heap := heap w;
              c_ := c';
              log := log w ++ [EvTcpWritev iov nt poll r] |}.

(** [TcpConn::Read], [Write], [Readv], [Writev]. *)
Definition Read (buf : addr) (len : Z) (nt poll : bool) : M world Z :=
  __tcp_read buf len nt poll.

Definition Write (buf : addr) (len : Z) (nt poll : bool) : M world Z :=
  __tcp_write buf len nt poll.

Definition Readv (iov : list iovec) (nt poll : bool) : M world Z :=
  __tcp_readv iov nt poll.

Definition Writev (iov : list iovec) (nt poll : bool) : M world Z :=
  __tcp_writev iov nt poll.

#[export] Instance TcpConn_NetConn : NetConn.NetConn (tcpconn_t rt) :=
  {| NetConn.Read := Read; NetConn.Write := Write |}.

(** The loop of [TcpConn::ReadFull]; [n] is the local variable. *)
Fixpoint ReadFull_loop (fuel : nat) (pos : addr) (len n : Z)
         (nt poll : bool) : M world Z :=
  match fuel with
  | O => out_of_fuel
  | S fuel' =>
      if n <? len then
        ret <- Read (pos + n) (to_size (len - n)) nt poll ;;
        if ret <=? 0 then mret ret
        else ReadFull_loop fuel' pos len (to_size (n + ret)) nt poll
      else
        assert (n =? len) ;;;
        mret (to_ssize n)
  end.

(** [TcpConn::ReadFull]. *)
Definition ReadFull (fuel : nat) (buf : addr) (len : Z) (nt poll : bool)
  : M world Z :=
  ReadFull_loop fuel buf len 0 nt poll.

(** The loop of [TcpConn::WriteFull]. *)
Fixpoint WriteFull_loop (fuel : nat) (pos : addr) (len n : Z)
         (nt poll : bool) : M world Z :=
  match fuel with
  | O => out_of_fuel
  | S fuel' =>
      if n <? len then
        ret <- Write (pos + n) (to_size (len - n)) nt poll ;;
        if ret <? 0 then mret ret
        else
          assert (0 <? ret) ;;;
          WriteFull_loop fuel' pos len (to_size (n + ret)) nt poll
      else
        assert (n =? len) ;;;
        mret (to_ssize n)
  end.

(** [TcpConn::WriteFull]. *)
Definition WriteFull (fuel : nat) (buf : addr) (len : Z) (nt poll : bool)
  : M world Z :=
  WriteFull_loop fuel buf len 0 nt poll.

(** Modelled from the spec: [ReadvFullRaw] and [WritevFullRaw] are only
    declared in [net.h]; their bodies are outside this header.  Section
    4.2 of the specification: "issue the native vector call
    with the current (possibly trimmed) segment list and offset; on
    partial completion, advance past fully-consumed segments and trim the
    first partially-consumed segment's offset/length before the next
    call; repeat until the total requested length is satisfied or an
    end/error condition occurs.  This path never copies through the
    scratch buffer." *)
Fixpoint iov_advance (iov : list iovec) (k : Z) : list iovec :=
  match iov with
  | [] => []
  | s :: rest =>
      if iov_len s <=? k then iov_advance rest (k - iov_len s)
      else {| iov_base := iov_base s + k; iov_len := iov_len s - k |} :: rest
  end.

(** Modelled from the spec: the loop of the raw vectored transfer (see
    [iov_advance]); [native] is the transport's vectored call. *)
Fixpoint FullRaw_loop (native : list iovec -> bool -> bool -> M world Z)
         (fuel : nat) (iov : list iovec) (total n : Z) (nt poll : bool)
  : M world Z :=
  match fuel with
  | O => out_of_fuel
  | S fuel' =>
      if n <? total then
        ret <- native iov nt poll ;;
        if ret <=? 0 then mret ret
        else FullRaw_loop native fuel' (iov_advance iov ret) total (n + ret)
                          nt poll
      else mret (to_ssize n)
  end.

(** Modelled from the spec: [TcpConn::ReadvFullRaw] (see [iov_advance]). *)
Definition ReadvFullRaw (fuel : nat) (iov : list iovec) (nt poll : bool)
  : M world Z :=
  FullRaw_loop Readv fuel iov (accumulate iov) 0 nt poll.

(** Modelled from the spec: [TcpConn::WritevFullRaw] (see [iov_advance]). *)
Definition WritevFullRaw (fuel : nat) (iov : list iovec) (nt poll : bool)
  : M world Z :=
  FullRaw_loop Writev fuel iov (accumulate iov) 0 nt poll.

(** [TcpConn::ReadvFull<Extent>]. *)
Definition ReadvFull (fuel : nat) (iov : span) (nt poll : bool) : M world Z :=
  match iov with
  | FixedSpan [iov0] => ReadFull fuel (iov_base iov0) (iov_len iov0) nt poll
  | FixedSpan l =>
      let total_len := accumulate l in
      if total_len <=? kIOVCopyThresh then
        ret <- ReadFull fuel buf_ total_len nt poll ;;
        detail.scatter_to buf_ l ;;;
        mret ret
      else ReadvFullRaw fuel l nt poll
  | DynSpan l => ReadvFullRaw fuel l nt poll
  end.

(** [TcpConn::WritevFull<Extent>]. *)
Definition WritevFull (fuel : nat) (iov : span) (nt poll : bool) : M world Z :=
  match iov with
  | FixedSpan [iov0] => WriteFull fuel (iov_base iov0) (iov_len iov0) nt poll
  | FixedSpan l =>
      let total_len := accumulate l in
      if total_len <=? kIOVCopyThresh then
        detail.gather_from buf_ l ;;;
        WriteFull fuel buf_ total_len nt poll
      else WritevFullRaw fuel l nt poll
  | DynSpan l => WritevFullRaw fuel l nt poll
  end.

(** [std::span{iov, static_cast<size_t>(iovcnt)}]: the class template
    argument deduction gives a span of dynamic extent over the first
    [iovcnt] elements of the array [iov]. *)
Definition span_of (iov : list iovec) (iovcnt : Z) : span :=
  DynSpan (firstn (Z.to_nat (to_size iovcnt)) iov).

(** [TcpConn::ReadvFull(const iovec *, int, bool, bool)]. *)
Definition ReadvFull_iovcnt (fuel : nat) (iov : list iovec) (iovcnt : Z)
           (nt poll : bool) : M world Z :=
  ReadvFull fuel (span_of iov iovcnt) nt poll.

(** [TcpConn::WritevFull(const iovec *, int, bool, bool)]. *)
Definition WritevFull_iovcnt (fuel : nat) (iov : list iovec) (iovcnt : Z)
           (nt poll : bool) : M world Z :=
  WritevFull fuel (span_of iov iovcnt) nt poll.

End WithRuntime.
End TcpConn.

(** ** Vocabulary of the statements *)

(** The sum of the lengths, as a mathematical integer. *)
Fixpoint total_len (iov : list iovec) : Z :=
  match iov with
  | [] => 0
  | s :: rest => iov_len s + total_len rest
  end.

(** [offset_i]: the sum of the lengths of the segments before index [i]. *)
Definition offset_of (iov : list iovec) (i : nat) : Z :=
  total_len (firstn i iov).

(** Every length is a value of [std::size_t]. *)
Definition wf_iov (iov : list iovec) : bool :=
  forallb (fun s => (0 <=? iov_len s) && (iov_len s <? SIZE_MOD)) iov.

(** The address ranges [[p1, p1+l1)] and [[p2, p2+l2)] share no byte. *)
Definition range_disjoint (p1 l1 p2 l2 : Z) : bool :=
  (p1 + l1 <=? p2) || (p2 + l2 <=? p1) || (l1 <=? 0) || (l2 <=? 0).

(** No segment of [iov] touches [[p, p+len)]. *)
Definition segs_avoid (p len : Z) (iov : list iovec) : bool :=
  forallb (fun s => range_disjoint (iov_base s) (iov_len s) p len) iov.

Fixpoint pairwise_disjoint (iov : list iovec) : bool :=
  match iov with
  | [] => true
  | s :: rest =>
      segs_avoid (iov_base s) (iov_len s) rest && pairwise_disjoint rest
  end.

(** The bytes the segments hold, segment after segment. *)
Definition load_iov (m : mem) (iov : list iovec) : list byte :=
  concat (map (fun s => load m (iov_base s) (iov_len s)) iov).

Definition in_range (p len a : Z) : Prop := p <= a < p + len.

(** The segments of [iov] keep clear of the range [[p, p+len)]. *)
Definition clear_of (p len : Z) (iov : list iovec) : Prop :=
  forall s a, In s iov ->
    in_range (iov_base s) (iov_len s) a -> in_range p len a -> False.

(** The [Read] calls of a run of [ReadFull] whose successive calls
    returned [rets], from the loop state [n]. *)
Fixpoint read_events (pos : addr) (len : Z) (nt poll : bool) (n : Z)
         (rets : list Z) : list event :=
  match rets with
  | [] => []
  | r :: rest =>
      EvTcpRead (pos + n) (len - n) nt poll r
        :: read_events pos len nt poll (n + r) rest
  end.

(** The same for the [Write] calls of [WriteFull]. *)
Fixpoint write_events (pos : addr) (len : Z) (nt poll : bool) (n : Z)
         (rets : list Z) : list event :=
  match rets with
  | [] => []
  | r :: rest =>
      EvTcpWrite (pos + n) (len - n) nt poll r
        :: write_events pos len nt poll (n + r) rest
  end.

Definition sum_Z (l : list Z) : Z := fold_right Z.add 0 l.

(** The copies of a scatter, as the specification words them: segment
    [i] receives the range of the buffer at [offset_i]. *)
Definition scatter_events (buf : addr) (iov : list iovec) : list event :=
  map (fun i =>
         let s := nth i iov {| iov_base := 0; iov_len := 0 |} in
         EvMemcpy (iov_base s) (buf + offset_of iov i) (iov_len s))
      (seq 0 (length iov)).

(** The copy in the other direction. *)
Definition mirror (e : event) : event :=
  match e with
  | EvMemcpy dst src n => EvMemcpy src dst n
  | _ => e
  end.

Definition gather_events (buf : addr) (iov : list iovec) : list event :=
  map mirror (scatter_events buf iov).

Definition is_memcpy (e : event) : bool :=
  match e with EvMemcpy _ _ _ => true | _ => false end.

(** Bytes moved by the [memcpy] calls of a log. *)
Definition bytes_copied (evs : list event) : Z :=
  sum_Z (map (fun e => match e with EvMemcpy _ _ n => n | _ => 0 end) evs).

(** The memory after the copies of [detail.general_scatter_gather], and
    the [memcpy] calls it makes. *)
Fixpoint copy_mem (Scatter : bool) (buf : addr) (offset : Z)
         (iov : list iovec) (m : mem) : mem :=
  match iov with
  | [] => m
  | s :: rest =>
      copy_mem Scatter buf (to_size (offset + iov_len s)) rest
               (if Scatter
                then mem_copy m (iov_base s) (buf + offset) (iov_len s)
                else mem_copy m (buf + offset) (iov_base s) (iov_len s))
  end.

Fixpoint copy_log (Scatter : bool) (buf : addr) (offset : Z)
         (iov : list iovec) : list event :=
  match iov with
  | [] => []
  | s :: rest =>
      (if Scatter
       then EvMemcpy (iov_base s) (buf + offset) (iov_len s)
       else EvMemcpy (buf + offset) (iov_base s) (iov_len s))
        :: copy_log Scatter buf (to_size (offset + iov_len s)) rest
  end.

Definition no_memcpy (evs : list event) : Prop :=
  Forall (fun e => is_memcpy e = false) evs.

(** [w'] is [w] after calls that made no [memcpy] and wrote nothing
    outside the addresses of [inside]. *)
Definition touches_only {C} (inside : Z -> Prop) (w w' : world C) : Prop :=
  (forall a, ~ inside a -> heap w' a = heap w a) /\
  exists evs, log w' = log w ++ evs /\ no_memcpy evs.

(** Some segment of [iov] holds the address [a]. *)
Definition in_segs (iov : list iovec) (a : Z) : Prop :=
  exists s, In s iov /\ in_range (iov_base s) (iov_len s) a.

(** The transport contract the specification assumes (section 3: "no
    partial-success value ever exceeds the requested length"). *)
Definition read_bounded (rt : tcp_runtime) : Prop :=
  forall c len nt poll,
    0 <= len -> fst (fst (tcp_read_op rt c len nt poll)) <= len.

Definition write_bounded (rt : tcp_runtime) : Prop :=
  forall c data nt poll,
    fst (tcp_write_op rt c data nt poll) <= Z.of_nat (length data).

(** The small-total path: a span of static extent with more than one
    segment whose total length, as [std::accumulate] computes it, is at
    most the capacity of the scratch buffer. *)
Definition small_path (iov : span) : bool :=
  match iov with
  | FixedSpan l =>
      (2 <=? length l)%nat && (TcpConn.accumulate l <=? TcpConn.kIOVCopyThresh)
  | DynSpan _ => false
  end.

Definition span_elems (iov : span) : list iovec :=
  match iov with FixedSpan l => l | DynSpan l => l end.

(** ** A concrete runtime: a loop-back pipe

    The connection is the list of bytes in flight.  Every call moves at
    most [chunk] bytes; a receive on an empty pipe returns 0 (stream
    closed), a receive or send never returns an error. *)
Module Pipe.

Definition chunk : Z := 7.

Definition read_op (c : list byte) (len : Z) (nt poll : bool)
  : Z * list byte * list byte :=
  let k := Z.to_nat (Z.min len chunk) in
  (Z.of_nat (length (firstn k c)), firstn k c, skipn k c).

Definition write_op (c : list byte) (data : list byte) (nt poll : bool)
  : Z * list byte :=
  let d := firstn (Z.to_nat chunk) data in
  (Z.of_nat (length d), c ++ d).

Definition rt : tcp_runtime :=
  {| tcpconn_t := list byte;
     tcp_read_op := read_op;
     tcp_write_op := write_op;
     tcp_readv_op := fun c lens => read_op c (sum_Z lens);
     tcp_writev_op := fun c segs => write_op c (concat segs) |}.

(** A connection on which every call returns [code] and moves nothing
    ([code = 0]: closed for receives, stalled for sends; [code < 0]: an
    error). *)
Definition broken (code : Z) : tcp_runtime :=
  {| tcpconn_t := unit;
     tcp_read_op := fun c _ _ _ => (code, [], c);
     tcp_write_op := fun c _ _ _ => (code, c);
     tcp_readv_op := fun c _ _ _ => (code, [], c);
     tcp_writev_op := fun c _ _ _ => (code, c) |}.

(** A datagram socket with the same bytes: one datagram per byte list. *)
Definition udp : udp_runtime :=
  {| udpconn_t := list (list byte);
     udp_read_op := fun c len =>
       match c with
       | [] => (0, [], [])
       | d :: rest => (Z.min len (Z.of_nat (length d)), d, rest)
       end;
     udp_write_op := fun c data => (Z.of_nat (length data), c ++ [data]) |}.

(** Memory that holds [data] at [p] and zeroes elsewhere. *)
Definition mem_with (cells : list (addr * list byte)) : mem :=
  fold_right (fun '(p, d) m => store m p (Z.of_nat (length d)) d)
             (fun _ => x00) cells.

Definition start {C} (cells : list (addr * list byte)) (c : C) : world C :=
  {| heap := mem_with cells; c_ := c; log := [] |}.

(** What a test reads off an outcome. *)
Definition view {C A} (probe : list iovec) (o : outcome (world C) A)
  : option (option A * list (list byte) * list event) :=
  match o with
  | Done a w =>
      Some (Some a, map (fun s => load (heap w) (iov_base s) (iov_len s)) probe,
            log w)
  | Fatal w =>
      Some (None, map (fun s => load (heap w) (iov_base s) (iov_len s)) probe,
            log w)
  | Stuck => None
  end.

End Pipe.

Definition seg (p len : Z) : iovec := {| iov_base := p; iov_len := len |}.

Unset Implicit Arguments.

(** ** Vocabulary of the further properties *)

(** A call of [Read] that a [ReadFull] of [len] bytes at [buf] may make:
    the caller's hints, and a range that is not empty and lies inside
    the caller's buffer. *)
Definition read_call_ok (buf : addr) (len : Z) (nt poll : bool) (e : event)
  : Prop :=
  match e with
  | EvTcpRead b l nt' poll' _ =>
      buf <= b /\ 0 < l /\ b + l <= buf + len /\ nt' = nt /\ poll' = poll
  | _ => False
  end.

Definition write_call_ok (buf : addr) (len : Z) (nt poll : bool) (e : event)
  : Prop :=
  match e with
  | EvTcpWrite b l nt' poll' _ =>
      buf <= b /\ 0 < l /\ b + l <= buf + len /\ nt' = nt /\ poll' = poll
  | _ => False
  end.

(** A receive side that behaves as a byte stream.  [pending c] is what
    the peer has sent and this side has not read yet; a receive takes
    some prefix of it, no longer than the buffer, and takes a byte or
    more whenever there is one; with nothing pending it returns 0 (the
    peer has closed). *)
Definition stream_reads (rt : tcp_runtime)
           (pending : tcpconn_t rt -> list byte) : Prop :=
  forall c len nt poll,
    0 < len ->
    exists (k : nat) (c' : tcpconn_t rt),
      tcp_read_op rt c len nt poll = (Z.of_nat k, firstn k (pending c), c') /\
      Z.of_nat k <= len /\
      (k <= length (pending c))%nat /\
      pending c' = skipn k (pending c) /\
      (pending c <> [] -> (0 < k)%nat).

(** A send side that behaves as a byte stream.  [sent c] is what has
    been handed to the transport; a send takes a prefix of the buffer,
    of a byte or more. *)
Definition stream_writes (rt : tcp_runtime)
           (sent : tcpconn_t rt -> list byte) : Prop :=
  forall c data nt poll,
    data <> [] ->
    exists (k : nat) (c' : tcpconn_t rt),
      tcp_write_op rt c data nt poll = (Z.of_nat k, c') /\
      (0 < k <= length data)%nat /\
      sent c' = sent c ++ firstn k data.

(** Only [memcpy] calls. *)
Definition only_memcpy (evs : list event) : Prop :=
  Forall (fun e => is_memcpy e = true) evs.

(** * Properties *)

(** ** Integers *)

Lemma to_size_small (z : Z) : 0 <= z < SIZE_MOD -> to_size z = z.
Proof. intros H. unfold to_size. now apply Z.mod_small. Qed.

Lemma to_size_range (z : Z) : 0 <= to_size z < SIZE_MOD.
Proof. unfold to_size. apply Z.mod_pos_bound. reflexivity. Qed.

Lemma to_ssize_small (z : Z) : 0 <= z <= SSIZE_MAX -> to_ssize z = z.
Proof.
  intros H. unfold to_ssize.
  assert (Hs : SSIZE_MAX < SIZE_MOD) by reflexivity.
  rewrite to_size_small by lia.
  destruct (z <=? SSIZE_MAX) eqn:E; [reflexivity | apply Z.leb_gt in E; lia].
Qed.

Lemma SSIZE_MAX_lt : SSIZE_MAX < SIZE_MOD.
Proof. reflexivity. Qed.

Lemma thresh_lt : TcpConn.kIOVCopyThresh < SIZE_MOD.
Proof. reflexivity. Qed.

(** ** Memory *)

Lemma load_length (m : mem) (p len : Z) :
  length (load m p len) = Z.to_nat len.
Proof. unfold load. now rewrite length_map, length_seq. Qed.

Lemma load_ext (m1 m2 : mem) (p len : Z) :
  (forall a, in_range p len a -> m1 a = m2 a) ->
  load m1 p len = load m2 p len.
Proof.
  intros H. unfold load. apply map_ext_in. intros i Hi.
  apply in_seq in Hi. apply H. unfold in_range. lia.
Qed.

Lemma load_nonpos (m : mem) (p len : Z) : len <= 0 -> load m p len = [].
Proof.
  intros H. unfold load.
  replace (Z.to_nat len) with O by lia. reflexivity.
Qed.


Lemma seq_from (k n : nat) : seq k n = map (Nat.add k) (seq 0 n).
Proof.
  revert k. induction n as [| n IH]; intros k; simpl; [reflexivity|].
  rewrite Nat.add_0_r. f_equal.
  rewrite (IH (S k)), (IH 1%nat), map_map.
  apply map_ext. intros i. lia.
Qed.

Lemma load_app (m : mem) (p a b : Z) :
  0 <= a -> 0 <= b -> load m p (a + b) = load m p a ++ load m (p + a) b.
Proof.
  intros Ha Hb. unfold load.
  rewrite Z2Nat.inj_add by assumption.
  rewrite seq_app, map_app. f_equal.
  rewrite (seq_from (0 + Z.to_nat a)), map_map.
  apply map_ext. intros i. f_equal. lia.
Qed.

Lemma mem_copy_inside (m : mem) (dst src n a : Z) :
  in_range dst n a -> mem_copy m dst src n a = m (src + (a - dst)).
Proof.
  unfold in_range, mem_copy. intros H.
  replace ((dst <=? a) && (a <? dst + n)) with true; [reflexivity|].
  symmetry. apply andb_true_iff. split; [apply Z.leb_le | apply Z.ltb_lt]; lia.
Qed.

Lemma mem_copy_outside (m : mem) (dst src n a : Z) :
  ~ in_range dst n a -> mem_copy m dst src n a = m a.
Proof.
  unfold in_range, mem_copy. intros H.
  destruct ((dst <=? a) && (a <? dst + n)) eqn:E; [|reflexivity].
  apply andb_true_iff in E. destruct E as [E1 E2].
  apply Z.leb_le in E1. apply Z.ltb_lt in E2. lia.
Qed.

Lemma load_mem_copy (m : mem) (dst src n : Z) :
  load (mem_copy m dst src n) dst n = load m src n.
Proof.
  unfold load. apply map_ext_in. intros i Hi. apply in_seq in Hi.
  rewrite mem_copy_inside by (unfold in_range; lia).
  f_equal. lia.
Qed.

Lemma store_outside (m : mem) (p len : Z) (data : list byte) (a : Z) :
  ~ in_range p len a -> store m p len data a = m a.
Proof.
  unfold in_range, store. intros H.
  destruct ((p <=? a) && (a <? p + Z.min len (Z.of_nat (length data)))) eqn:E;
    [|reflexivity].
  apply andb_true_iff in E. destruct E as [E1 E2].
  apply Z.leb_le in E1. apply Z.ltb_lt in E2. lia.
Qed.

Lemma range_disjoint_spec (p1 l1 p2 l2 a : Z) :
  range_disjoint p1 l1 p2 l2 = true ->
  in_range p1 l1 a -> in_range p2 l2 a -> False.
Proof.
  unfold range_disjoint, in_range. intros H H1 H2.
  repeat (apply orb_true_iff in H; destruct H as [H | H]);
    apply Z.leb_le in H; lia.
Qed.

Lemma segs_avoid_spec (p len : Z) (iov : list iovec) (s : iovec) (a : Z) :
  segs_avoid p len iov = true -> In s iov ->
  in_range (iov_base s) (iov_len s) a -> in_range p len a -> False.
Proof.
  unfold segs_avoid. intros H Hin H1 H2.
  rewrite forallb_forall in H.
  exact (range_disjoint_spec _ _ _ _ _ (H s Hin) H1 H2).
Qed.

Lemma store_iov_outside (iov : list iovec) :
  forall (m : mem) (data : list byte) (a : Z),
    (forall s, In s iov -> ~ in_range (iov_base s) (iov_len s) a) ->
    store_iov m iov data a = m a.
Proof.
  induction iov as [| s rest IH]; intros m data a H; simpl; [reflexivity|].
  rewrite IH by (intros s' Hs'; apply H; now right).
  apply store_outside. apply H. now left.
Qed.

Lemma wf_iov_cons (s : iovec) (rest : list iovec) :
  wf_iov (s :: rest) = true ->
  0 <= iov_len s < SIZE_MOD /\ wf_iov rest = true.
Proof.
  unfold wf_iov. simpl. intros H.
  apply andb_true_iff in H. destruct H as [H1 H2].
  apply andb_true_iff in H1. destruct H1 as [Ha Hb].
  apply Z.leb_le in Ha. apply Z.ltb_lt in Hb. auto.
Qed.

Lemma total_len_nonneg (iov : list iovec) :
  wf_iov iov = true -> 0 <= total_len iov.
Proof.
  induction iov as [| s rest IH]; simpl; intros H; [lia|].
  apply wf_iov_cons in H. destruct H as [H1 H2]. specialize (IH H2). lia.
Qed.

(** Without overflow [std::accumulate] computes the sum. *)
Lemma accumulate_from (iov : list iovec) :
  forall acc, wf_iov iov = true -> 0 <= acc -> acc + total_len iov < SIZE_MOD ->
    fold_left (fun s a => to_size (s + iov_len a)) iov acc = acc + total_len iov.
Proof.
  induction iov as [| s rest IH]; simpl; intros acc Hwf Hacc Hlt; [lia|].
  apply wf_iov_cons in Hwf. destruct Hwf as [Hs Hrest].
  pose proof (total_len_nonneg _ Hrest) as Hnn.
  rewrite to_size_small by lia.
  rewrite IH by (auto; lia). lia.
Qed.

Lemma accumulate_total (iov : list iovec) :
  wf_iov iov = true -> total_len iov < SIZE_MOD ->
  TcpConn.accumulate iov = total_len iov.
Proof.
  intros Hwf Hlt. unfold TcpConn.accumulate.
  rewrite accumulate_from by (auto; lia). lia.
Qed.


(** ** Scatter and gather *)

Lemma general_scatter_gather_run {C} (Scatter : bool) (buf : addr)
      (iov : list iovec) :
  forall (offset : Z) (w : world C),
    detail.general_scatter_gather Scatter buf offset iov w =
    Done tt {| heap := copy_mem Scatter buf offset iov (heap w);
               c_ := c_ w;
               log := log w ++ copy_log Scatter buf offset iov |}.
Proof.
  induction iov as [| s rest IH]; intros offset w; simpl.
  - unfold mret. destruct w; simpl. now rewrite app_nil_r.
  - unfold bind. destruct Scatter; unfold memcpy; rewrite IH; simpl;
      now rewrite <- app_assoc.
Qed.

Lemma offset_of_cons (s : iovec) (rest : list iovec) (i : nat) :
  offset_of (s :: rest) (S i) = iov_len s + offset_of rest i.
Proof. reflexivity. Qed.

Lemma offset_of_bound (iov : list iovec) :
  wf_iov iov = true ->
  forall i s, nth_error iov i = Some s ->
    0 <= offset_of iov i /\ offset_of iov i + iov_len s <= total_len iov.
Proof.
  induction iov as [| s0 rest IH]; intros Hwf i s Hi.
  - destruct i; discriminate.
  - apply wf_iov_cons in Hwf. destruct Hwf as [H0 Hrest].
    pose proof (total_len_nonneg _ Hrest) as Hnn.
    destruct i as [| i]; simpl in Hi.
    + injection Hi as <-. unfold offset_of. simpl. lia.
    + rewrite offset_of_cons. simpl. specialize (IH Hrest i s Hi). lia.
Qed.

(** The log of a scatter whose offsets do not wrap, from any start. *)
Lemma copy_log_scatter (buf : addr) (iov : list iovec) :
  forall offset,
    wf_iov iov = true -> 0 <= offset -> offset + total_len iov < SIZE_MOD ->
    copy_log true buf offset iov =
    map (fun i =>
           let s := nth i iov {| iov_base := 0; iov_len := 0 |} in
           EvMemcpy (iov_base s) (buf + offset + offset_of iov i) (iov_len s))
        (seq 0 (length iov)).
Proof.
  induction iov as [| s rest IH]; intros offset Hwf H0 Hlt; [reflexivity|].
  apply wf_iov_cons in Hwf. destruct Hwf as [Hs Hrest].
  pose proof (total_len_nonneg _ Hrest) as Hnn. simpl in Hlt.
  cbn [copy_log length seq map nth]. f_equal.
  - unfold offset_of. simpl. f_equal. lia.
  - rewrite to_size_small by lia.
    rewrite IH by (auto; lia).
    rewrite <- seq_shift, map_map. apply map_ext. intros i.
    rewrite offset_of_cons. cbn [nth]. f_equal. lia.
Qed.

Lemma copy_log_mirror (buf : addr) (iov : list iovec) :
  forall offset,
    copy_log false buf offset iov = map mirror (copy_log true buf offset iov).
Proof.
  induction iov as [| s rest IH]; intros offset; simpl; [reflexivity|].
  now rewrite IH.
Qed.

Lemma scatter_log (buf : addr) (iov : list iovec) :
  wf_iov iov = true -> total_len iov < SIZE_MOD ->
  copy_log true buf 0 iov = scatter_events buf iov.
Proof.
  intros Hwf Hlt. rewrite copy_log_scatter by (auto; lia).
  unfold scatter_events. apply map_ext. intros i. simpl. f_equal. lia.
Qed.

Lemma gather_log (buf : addr) (iov : list iovec) :
  wf_iov iov = true -> total_len iov < SIZE_MOD ->
  copy_log false buf 0 iov = gather_events buf iov.
Proof.
  intros Hwf Hlt. rewrite copy_log_mirror, scatter_log by assumption.
  reflexivity.
Qed.

(** Every [memcpy] call of a scatter or gather moves one segment, in
    list order. *)
Lemma copy_log_lengths (Scatter : bool) (buf : addr) (iov : list iovec) :
  forall offset,
    map (fun e => match e with EvMemcpy _ _ n => n | _ => 0 end)
        (copy_log Scatter buf offset iov) = map iov_len iov.
Proof.
  induction iov as [| s rest IH]; intros offset; simpl; [reflexivity|].
  rewrite IH. now destruct Scatter.
Qed.

Lemma sum_Z_lens (iov : list iovec) : sum_Z (map iov_len iov) = total_len iov.
Proof. induction iov as [| s rest IH]; simpl; [reflexivity | now rewrite IH]. Qed.

Lemma copy_log_bytes (Scatter : bool) (buf : addr) (iov : list iovec)
      (offset : Z) :
  bytes_copied (copy_log Scatter buf offset iov) = total_len iov.
Proof. unfold bytes_copied. now rewrite copy_log_lengths, sum_Z_lens. Qed.

(** A scatter writes inside the segments only. *)
Lemma scatter_outside (buf : addr) (iov : list iovec) :
  forall offset m a,
    (forall s, In s iov -> ~ in_range (iov_base s) (iov_len s) a) ->
    copy_mem true buf offset iov m a = m a.
Proof.
  induction iov as [| s rest IH]; intros offset m a H; simpl; [reflexivity|].
  rewrite IH by (intros s' Hs'; apply H; now right).
  apply mem_copy_outside. apply H. now left.
Qed.

(** A gather writes inside the buffer range only. *)
Lemma gather_outside (buf : addr) (iov : list iovec) :
  forall offset m a,
    wf_iov iov = true -> 0 <= offset -> offset + total_len iov < SIZE_MOD ->
    ~ in_range (buf + offset) (total_len iov) a ->
    copy_mem false buf offset iov m a = m a.
Proof.
  induction iov as [| s rest IH]; intros offset m a Hwf H0 Hlt Ha; simpl;
    [reflexivity|].
  apply wf_iov_cons in Hwf. destruct Hwf as [Hs Hrest].
  pose proof (total_len_nonneg _ Hrest) as Hnn. simpl in Hlt, Ha.
  rewrite to_size_small by lia.
  rewrite IH; auto; try lia.
  - apply mem_copy_outside. unfold in_range in *. lia.
  - unfold in_range in *. lia.
Qed.


Lemma segs_avoid_clear (p len : Z) (iov : list iovec) :
  segs_avoid p len iov = true -> clear_of p len iov.
Proof.
  intros H s a Hin H1 H2. exact (segs_avoid_spec _ _ _ _ _ H Hin H1 H2).
Qed.

Lemma clear_of_tail (p len p' len' : Z) (s : iovec) (rest : list iovec) :
  clear_of p len (s :: rest) ->
  (forall a, in_range p' len' a -> in_range p len a) ->
  clear_of p' len' rest.
Proof.
  intros H Hsub s' a Hin H1 H2. apply (H s' a); auto. now right.
Qed.

Lemma load_iov_ext (m1 m2 : mem) (iov : list iovec) :
  (forall s a, In s iov -> in_range (iov_base s) (iov_len s) a -> m1 a = m2 a) ->
  load_iov m1 iov = load_iov m2 iov.
Proof.
  intros H. unfold load_iov. f_equal. apply map_ext_in. intros s Hs.
  apply load_ext. intros a Ha. exact (H s a Hs Ha).
Qed.

Ltac split_wf Hwf Hs Hrest Hnn :=
  apply wf_iov_cons in Hwf; destruct Hwf as [Hs Hrest];
  pose proof (total_len_nonneg _ Hrest) as Hnn.

(** After a scatter, segment [i] holds the bytes the buffer held at
    [offset_i]. *)
Lemma scatter_segment (buf : addr) (iov : list iovec) :
  forall offset m,
    wf_iov iov = true -> 0 <= offset -> offset + total_len iov < SIZE_MOD ->
    clear_of (buf + offset) (total_len iov) iov ->
    pairwise_disjoint iov = true ->
    forall i s, nth_error iov i = Some s ->
      load (copy_mem true buf offset iov m) (iov_base s) (iov_len s) =
      load m (buf + offset + offset_of iov i) (iov_len s).
Proof.
  induction iov as [| s0 rest IH]; intros offset m Hwf H0 Hlt Hclr Hpw i s Hi.
  - destruct i; discriminate.
  - pose proof Hwf as Hwf0. split_wf Hwf Hs Hrest Hnn.
    simpl in Hlt, Hpw. apply andb_true_iff in Hpw. destruct Hpw as [Hav Hpw].
    cbn [copy_mem]. rewrite to_size_small by lia.
    destruct i as [| i]; simpl in Hi.
    + injection Hi as <-.
      rewrite (load_ext _ (mem_copy m (iov_base s0) (buf + offset) (iov_len s0))).
      * rewrite load_mem_copy. f_equal. unfold offset_of. simpl. lia.
      * intros a Ha. apply scatter_outside. intros s' Hs' Hin.
        exact (segs_avoid_spec _ _ _ _ _ Hav Hs' Hin Ha).
    + rewrite (IH (offset + iov_len s0) _ Hrest) with (i := i); auto; try lia.
      * rewrite offset_of_cons.
        destruct (offset_of_bound _ Hrest i s Hi) as [Hb1 Hb2].
        replace (buf + (offset + iov_len s0) + offset_of rest i)
          with (buf + offset + (iov_len s0 + offset_of rest i)) by lia.
        apply load_ext. intros a Ha. apply mem_copy_outside. intros Hin.
        apply (Hclr s0 a); [now left | exact Hin |].
        unfold in_range in *. simpl. lia.
      * eapply clear_of_tail; [exact Hclr|].
        unfold in_range; simpl; intros a Ha. lia.
Qed.

(** After a scatter the segments, read in list order, hold the buffer's
    first [total_len iov] bytes. *)
Lemma scatter_content (buf : addr) (iov : list iovec) :
  forall offset m,
    wf_iov iov = true -> 0 <= offset -> offset + total_len iov < SIZE_MOD ->
    clear_of (buf + offset) (total_len iov) iov ->
    pairwise_disjoint iov = true ->
    load_iov (copy_mem true buf offset iov m) iov =
    load m (buf + offset) (total_len iov).
Proof.
  induction iov as [| s0 rest IH]; intros offset m Hwf H0 Hlt Hclr Hpw.
  - reflexivity.
  - split_wf Hwf Hs Hrest Hnn.
    simpl in Hlt, Hpw. apply andb_true_iff in Hpw. destruct Hpw as [Hav Hpw].
    cbn [copy_mem total_len]. rewrite to_size_small by lia.
    rewrite load_app by lia.
    unfold load_iov at 1. cbn [map concat]. fold (load_iov (copy_mem true buf (offset + iov_len s0) rest
      (mem_copy m (iov_base s0) (buf + offset) (iov_len s0))) rest).
    f_equal.
    + rewrite (load_ext _ (mem_copy m (iov_base s0) (buf + offset) (iov_len s0))).
      * apply load_mem_copy.
      * intros a Ha. apply scatter_outside. intros s' Hs' Hin.
        exact (segs_avoid_spec _ _ _ _ _ Hav Hs' Hin Ha).
    + rewrite IH; auto; try lia.
      * replace (buf + (offset + iov_len s0)) with (buf + offset + iov_len s0)
          by lia.
        apply load_ext. intros a Ha. apply mem_copy_outside. intros Hin.
        apply (Hclr s0 a); [now left | exact Hin |].
        unfold in_range in *. simpl. lia.
      * eapply clear_of_tail; [exact Hclr|].
        unfold in_range; simpl; intros a Ha. lia.
Qed.

(** After a gather the buffer holds the bytes of the segments, in list
    order. *)
Lemma gather_content (buf : addr) (iov : list iovec) :
  forall offset m,
    wf_iov iov = true -> 0 <= offset -> offset + total_len iov < SIZE_MOD ->
    clear_of (buf + offset) (total_len iov) iov ->
    load (copy_mem false buf offset iov m) (buf + offset) (total_len iov) =
    load_iov m iov.
Proof.
  induction iov as [| s0 rest IH]; intros offset m Hwf H0 Hlt Hclr.
  - reflexivity.
  - pose proof Hwf as Hwf0. split_wf Hwf Hs Hrest Hnn. simpl in Hlt.
    cbn [copy_mem total_len]. rewrite to_size_small by lia.
    rewrite load_app by lia.
    unfold load_iov. cbn [map concat]. f_equal.
    + rewrite (load_ext _ (mem_copy m (buf + offset) (iov_base s0) (iov_len s0))).
      * apply load_mem_copy.
      * intros a Ha. apply gather_outside; auto; try lia.
        unfold in_range in *. lia.
    + replace (buf + offset + iov_len s0) with (buf + (offset + iov_len s0))
        by lia.
      rewrite IH; auto; try lia.
      * apply load_iov_ext. intros s a Hin Ha. apply mem_copy_outside.
        intros Hb. apply (Hclr s a); [now right | exact Ha |].
        unfold in_range in *. simpl. lia.
      * eapply clear_of_tail; [exact Hclr|].
        unfold in_range; simpl; intros a Ha. lia.
Qed.


(** ** The loops of [ReadFull] and [WriteFull] *)

Section FullTransfer.
Variable rt : tcp_runtime.
Variables (pos : addr) (len : Z) (nt poll : bool).
Hypothesis len_range : 0 <= len <= SSIZE_MAX.

(** One iteration of the loop of [ReadFull]. *)
Lemma ReadFull_loop_step (fuel : nat) (n : Z) (w : world (tcpconn_t rt)) :
  0 <= n < len ->
  TcpConn.ReadFull_loop rt (S fuel) pos len n nt poll w =
  let '(r, data, c') := tcp_read_op rt (c_ w) (len - n) nt poll in
  let w1 := {| heap := store (heap w) (pos + n) (len - n) data; c_ := c';
               log := log w ++ [EvTcpRead (pos + n) (len - n) nt poll r] |} in
  if r <=? 0 then Done r w1
  else TcpConn.ReadFull_loop rt fuel pos len (to_size (n + r)) nt poll w1.
Proof.
  intros Hn. pose proof SSIZE_MAX_lt as Hmax.
  cbn [TcpConn.ReadFull_loop].
  replace (n <? len) with true by (symmetry; apply Z.ltb_lt; lia).
  rewrite (to_size_small (len - n)) by lia.
  unfold bind, TcpConn.Read, TcpConn.__tcp_read.
  destruct (tcp_read_op rt (c_ w) (len - n) nt poll) as [[r data] c'].
  cbv zeta. destruct (r <=? 0); reflexivity.
Qed.

Lemma ReadFull_loop_run :
  read_bounded rt ->
  forall fuel n w,
    0 <= n <= len -> (Z.to_nat (len - n) < fuel)%nat ->
    exists ret w' rets,
      TcpConn.ReadFull_loop rt fuel pos len n nt poll w = Done ret w' /\
      log w' = log w ++ read_events pos len nt poll n rets /\
      ((ret = len /\ Forall (fun r => 0 < r) rets /\ n + sum_Z rets = len) \/
       (ret <= 0 /\ exists pre, rets = pre ++ [ret] /\
                                Forall (fun r => 0 < r) pre /\
                                n + sum_Z pre < len)).
Proof.
  intros Hrb. pose proof SSIZE_MAX_lt as Hmax.
  induction fuel as [| fuel IH]; intros n w Hn Hfuel; [lia|].
  cbn [TcpConn.ReadFull_loop].
  destruct (n <? len) eqn:Elt.
  - apply Z.ltb_lt in Elt.
    rewrite (to_size_small (len - n)) by lia.
    unfold bind at 1, TcpConn.Read, TcpConn.__tcp_read.
    pose proof (Hrb (c_ w) (len - n) nt poll ltac:(lia)) as Hle.
    destruct (tcp_read_op rt (c_ w) (len - n) nt poll) as [[r data] c'].
    simpl in Hle.
    destruct (r <=? 0) eqn:Er.
    + apply Z.leb_le in Er.
      eexists r, _, [r]. split; [reflexivity|]. split; [reflexivity|].
      right. split; [exact Er|]. exists []. simpl. repeat split; auto. lia.
    + apply Z.leb_gt in Er.
      rewrite (to_size_small (n + r)) by lia.
      match goal with
      | |- context [TcpConn.ReadFull_loop rt fuel pos len (n + r) nt poll ?w1] =>
          destruct (IH (n + r) w1) as (ret & w' & rets & Hrun & Hlog & Hshape);
          [lia | lia |]
      end.
      eexists ret, w', (r :: rets). split; [exact Hrun|]. split.
      * rewrite Hlog. simpl. now rewrite <- app_assoc.
      * destruct Hshape as [(He & Hall & Hsum) | (Hle0 & pre & Hpre & Hall & Hsum)].
        -- left. repeat split; auto. simpl. lia.
        -- right. split; [exact Hle0|]. exists (r :: pre). subst rets.
           repeat split; auto. simpl. lia.
  - apply Z.ltb_ge in Elt. assert (n = len) by lia. subst n.
    unfold bind, assert. rewrite Z.eqb_refl. unfold mret.
    rewrite to_ssize_small by lia.
    eexists len, w, []. split; [reflexivity|]. split.
    + simpl. now rewrite app_nil_r.
    + left. repeat split; auto. simpl. lia.
Qed.

(** One iteration of the loop of [WriteFull]. *)
Lemma WriteFull_loop_step (fuel : nat) (n : Z) (w : world (tcpconn_t rt)) :
  0 <= n < len ->
  TcpConn.WriteFull_loop rt (S fuel) pos len n nt poll w =
  let '(r, c') :=
    tcp_write_op rt (c_ w) (load (heap w) (pos + n) (len - n)) nt poll in
  let w1 := {| heap := heap w; c_ := c';
               log := log w ++ [EvTcpWrite (pos + n) (len - n) nt poll r] |} in
  if r <? 0 then Done r w1
  else if 0 <? r
       then TcpConn.WriteFull_loop rt fuel pos len (to_size (n + r)) nt poll w1
       else Fatal w1.
Proof.
  intros Hn. pose proof SSIZE_MAX_lt as Hmax.
  cbn [TcpConn.WriteFull_loop].
  replace (n <? len) with true by (symmetry; apply Z.ltb_lt; lia).
  rewrite (to_size_small (len - n)) by lia.
  unfold bind, TcpConn.Write, TcpConn.__tcp_write.
  destruct (tcp_write_op rt (c_ w) (load (heap w) (pos + n) (len - n)) nt poll)
    as [r c'].
  cbv zeta. destruct (r <? 0); [reflexivity|].
  unfold assert. destruct (0 <? r); reflexivity.
Qed.

Lemma WriteFull_loop_run :
  write_bounded rt ->
  forall fuel n w,
    0 <= n <= len -> (Z.to_nat (len - n) < fuel)%nat ->
    exists w' rets,
      log w' = log w ++ write_events pos len nt poll n rets /\
      heap w' = heap w /\
      ((TcpConn.WriteFull_loop rt fuel pos len n nt poll w = Done len w' /\
        Forall (fun r => 0 < r) rets /\ n + sum_Z rets = len) \/
       (exists ret pre,
           TcpConn.WriteFull_loop rt fuel pos len n nt poll w = Done ret w' /\
           ret < 0 /\ rets = pre ++ [ret] /\ Forall (fun r => 0 < r) pre /\
           n + sum_Z pre < len) \/
       (exists pre,
           TcpConn.WriteFull_loop rt fuel pos len n nt poll w = Fatal w' /\
           rets = pre ++ [0] /\ Forall (fun r => 0 < r) pre /\
           n + sum_Z pre < len)).
Proof.
  intros Hwb. pose proof SSIZE_MAX_lt as Hmax.
  induction fuel as [| fuel IH]; intros n w Hn Hfuel; [lia|].
  destruct (Z.lt_ge_cases n len) as [Elt | Ege].
  - rewrite WriteFull_loop_step by lia.
    pose proof (Hwb (c_ w) (load (heap w) (pos + n) (len - n)) nt poll) as Hle.
    rewrite load_length in Hle.
    destruct (tcp_write_op rt (c_ w) (load (heap w) (pos + n) (len - n)) nt poll)
      as [r c'].
    simpl in Hle. cbv zeta.
    destruct (r <? 0) eqn:Er.
    + apply Z.ltb_lt in Er.
      eexists _, [r]. split; [|split]; [| |right; left; exists r, [];
        split; [reflexivity|]]; simpl; auto.
      repeat split; auto. lia.
    + apply Z.ltb_ge in Er.
      destruct (0 <? r) eqn:Epos.
      * apply Z.ltb_lt in Epos.
        rewrite (to_size_small (n + r)) by lia.
        match goal with
        | |- context [TcpConn.WriteFull_loop rt fuel pos len (n + r) nt poll ?w1] =>
            destruct (IH (n + r) w1) as (w' & rets & Hlog & Hheap & Hshape);
            [lia | lia |]
        end.
        exists w', (r :: rets). split.
        { rewrite Hlog. cbn [log write_events]. now rewrite <- app_assoc. }
        split; [rewrite Hheap; reflexivity|].
        destruct Hshape as [(Hrun & Hall & Hsum)
                           | [(ret & pre & Hrun & Hneg & Hpre & Hall & Hsum)
                             | (pre & Hrun & Hpre & Hall & Hsum)]].
        -- left. repeat split; auto. simpl. lia.
        -- right. left. exists ret, (r :: pre). subst rets.
           repeat split; auto. simpl. lia.
        -- right. right. exists (r :: pre). subst rets.
           repeat split; auto. simpl. lia.
      * apply Z.ltb_ge in Epos. assert (r = 0) by lia. subst r.
        eexists _, [0]. split; [|split]; [| |right; right; exists [];
          split; [reflexivity|]]; simpl; auto.
        repeat split; auto. lia.
  - assert (n = len) by lia. subst n.
    cbn [TcpConn.WriteFull_loop]. rewrite Z.ltb_irrefl.
    unfold bind, assert. rewrite Z.eqb_refl. unfold mret.
    rewrite to_ssize_small by lia.
    exists w, []. split; [simpl; now rewrite app_nil_r|].
    split; [reflexivity|].
    left. repeat split; auto. simpl. lia.
Qed.

End FullTransfer.


(** ** What a call may touch *)

Lemma touches_only_refl {C} (inside : Z -> Prop) (w : world C) :
  touches_only inside w w.
Proof.
  split; [reflexivity|]. exists []. split; [now rewrite app_nil_r | constructor].
Qed.

Lemma touches_only_trans {C} (inside : Z -> Prop) (w1 w2 w3 : world C) :
  touches_only inside w1 w2 -> touches_only inside w2 w3 ->
  touches_only inside w1 w3.
Proof.
  intros [H1 (e1 & L1 & N1)] [H2 (e2 & L2 & N2)]. split.
  - intros a Ha. rewrite H2, H1; auto.
  - exists (e1 ++ e2). split.
    + now rewrite L2, L1, app_assoc.
    + apply Forall_app. split; assumption.
Qed.

Lemma touches_only_weaken {C} (P Q : Z -> Prop) (w w' : world C) :
  (forall a, P a -> Q a) -> touches_only P w w' -> touches_only Q w w'.
Proof.
  intros HPQ [H1 H2]. split; [|exact H2].
  intros a Ha. apply H1. intros HP. apply Ha, HPQ, HP.
Qed.

Lemma ReadFull_loop_frame (rt : tcp_runtime) (pos : addr) (len : Z)
      (nt poll : bool) :
  0 <= len < SIZE_MOD ->
  forall fuel n w w',
    0 <= n ->
    final (TcpConn.ReadFull_loop rt fuel pos len n nt poll w) = Some w' ->
    touches_only (in_range pos len) w w'.
Proof.
  intros Hlen. induction fuel as [| fuel IH]; intros n w w' Hn Hfin;
    [discriminate|].
  cbn [TcpConn.ReadFull_loop] in Hfin.
  destruct (n <? len) eqn:Elt.
  - apply Z.ltb_lt in Elt.
    rewrite (to_size_small (len - n)) in Hfin by lia.
    unfold bind, TcpConn.Read, TcpConn.__tcp_read in Hfin.
    destruct (tcp_read_op rt (c_ w) (len - n) nt poll) as [[r data] c'].
    assert (Hstep : touches_only (in_range pos len) w
                      {| heap := store (heap w) (pos + n) (len - n) data;
                         c_ := c';
                         log := log w ++ [EvTcpRead (pos + n) (len - n) nt poll r] |}).
    { split; simpl.
      - intros a Ha. apply store_outside. unfold in_range in *. lia.
      - eexists. split; [reflexivity|]. repeat constructor. }
    destruct (r <=? 0).
    + simpl in Hfin. injection Hfin as <-. exact Hstep.
    + eapply touches_only_trans; [exact Hstep|].
      eapply IH; [|exact Hfin]. apply to_size_range.
  - unfold bind, assert in Hfin.
    destruct (n =? len); simpl in Hfin; injection Hfin as <-;
      apply touches_only_refl.
Qed.

Lemma WriteFull_loop_frame (rt : tcp_runtime) (pos : addr) (len : Z)
      (nt poll : bool) :
  forall fuel n w w',
    final (TcpConn.WriteFull_loop rt fuel pos len n nt poll w) = Some w' ->
    touches_only (fun _ => False) w w'.
Proof.
  induction fuel as [| fuel IH]; intros n w w' Hfin; [discriminate|].
  cbn [TcpConn.WriteFull_loop] in Hfin.
  destruct (n <? len).
  - unfold bind at 1, TcpConn.Write, TcpConn.__tcp_write in Hfin.
    destruct (tcp_write_op rt (c_ w)
                (load (heap w) (pos + n) (to_size (len - n))) nt poll) as [r c'].
    assert (Hstep : touches_only (fun _ => False) w
                      {| heap := heap w; c_ := c';
                         log := log w ++
                                [EvTcpWrite (pos + n) (to_size (len - n)) nt poll r] |}).
    { split; simpl; [reflexivity|].
      eexists. split; [reflexivity|]. repeat constructor. }
    destruct (r <? 0).
    + simpl in Hfin. injection Hfin as <-. exact Hstep.
    + unfold bind, assert in Hfin. destruct (0 <? r).
      * eapply touches_only_trans; [exact Hstep|]. eapply IH. exact Hfin.
      * simpl in Hfin. injection Hfin as <-. exact Hstep.
  - unfold bind, assert in Hfin.
    destruct (n =? len); simpl in Hfin; injection Hfin as <-;
      apply touches_only_refl.
Qed.

Lemma iov_advance_inside (iov : list iovec) :
  forall k a, 0 <= k ->
    in_segs (TcpConn.iov_advance iov k) a -> in_segs iov a.
Proof.
  induction iov as [| s rest IH]; intros k a Hk Hin; simpl in Hin.
  - exact Hin.
  - destruct (iov_len s <=? k) eqn:E.
    + apply Z.leb_le in E.
      destruct (IH (k - iov_len s) a) as (s' & Hs' & Ha); [lia | exact Hin |].
      exists s'. split; [now right | exact Ha].
    + destruct Hin as (s' & [<- | Hs'] & Ha).
      * exists s. split; [now left|]. unfold in_range in *. simpl in Ha. lia.
      * exists s'. split; [now right | exact Ha].
Qed.

Lemma ReadvFullRaw_loop_frame (rt : tcp_runtime) (nt poll : bool) (total : Z) :
  forall fuel iov n w w',
    final (TcpConn.FullRaw_loop rt (TcpConn.Readv rt) fuel iov total n nt poll w)
    = Some w' ->
    touches_only (in_segs iov) w w'.
Proof.
  induction fuel as [| fuel IH]; intros iov n w w' Hfin; [discriminate|].
  cbn [TcpConn.FullRaw_loop] in Hfin.
  destruct (n <? total).
  - unfold bind, TcpConn.Readv, TcpConn.__tcp_readv in Hfin.
    destruct (tcp_readv_op rt (c_ w) (map iov_len iov) nt poll) as [[r data] c'].
    assert (Hstep : touches_only (in_segs iov) w
                      {| heap := store_iov (heap w) iov data; c_ := c';
                         log := log w ++ [EvTcpReadv iov nt poll r] |}).
    { split; simpl.
      - intros a Ha. apply store_iov_outside. intros s Hs Hr.
        apply Ha. now exists s.
      - eexists. split; [reflexivity|]. repeat constructor. }
    destruct (r <=? 0) eqn:Er.
    + simpl in Hfin. injection Hfin as <-. exact Hstep.
    + apply Z.leb_gt in Er.
      eapply touches_only_trans; [exact Hstep|].
      eapply touches_only_weaken; [|eapply IH; exact Hfin].
      intros a. apply iov_advance_inside. lia.
  - simpl in Hfin. injection Hfin as <-. apply touches_only_refl.
Qed.

Lemma WritevFullRaw_loop_frame (rt : tcp_runtime) (nt poll : bool) (total : Z) :
  forall fuel iov n w w',
    final (TcpConn.FullRaw_loop rt (TcpConn.Writev rt) fuel iov total n nt poll w)
    = Some w' ->
    touches_only (fun _ => False) w w'.
Proof.
  induction fuel as [| fuel IH]; intros iov n w w' Hfin; [discriminate|].
  cbn [TcpConn.FullRaw_loop] in Hfin.
  destruct (n <? total).
  - unfold bind, TcpConn.Writev, TcpConn.__tcp_writev in Hfin.
    destruct (tcp_writev_op rt (c_ w)
                (map (fun s => load (heap w) (iov_base s) (iov_len s)) iov)
                nt poll) as [r c'].
    assert (Hstep : touches_only (fun _ => False) w
                      {| heap := heap w; c_ := c';
                         log := log w ++ [EvTcpWritev iov nt poll r] |}).
    { split; simpl; [reflexivity|].
      eexists. split; [reflexivity|]. repeat constructor. }
    destruct (r <=? 0).
    + simpl in Hfin. injection Hfin as <-. exact Hstep.
    + eapply touches_only_trans; [exact Hstep|]. eapply IH. exact Hfin.
  - simpl in Hfin. injection Hfin as <-. apply touches_only_refl.
Qed.


(** ** The concrete runtimes meet the transport contract *)

Lemma pipe_read_bounded : read_bounded Pipe.rt.
Proof.
  intros c len nt poll Hlen.
  cbn [Pipe.rt tcp_read_op Pipe.read_op fst].
  rewrite length_firstn. lia.
Qed.

Lemma pipe_write_bounded : write_bounded Pipe.rt.
Proof.
  intros c data nt poll.
  cbn [Pipe.rt tcp_write_op Pipe.write_op fst].
  rewrite length_firstn. lia.
Qed.

Lemma broken_read_bounded (code : Z) : code <= 0 -> read_bounded (Pipe.broken code).
Proof. intros H c len nt poll Hlen. simpl. lia. Qed.

Lemma broken_write_bounded (code : Z) :
  code <= 0 -> write_bounded (Pipe.broken code).
Proof. intros H c data nt poll. simpl. lia. Qed.

(** ** ReadFull and WriteFull *)

(** C1.  [ReadFull] returns a value: either exactly the requested length
    [len], after [Read] calls that all returned positive counts adding
    up to [len]; or the first zero-or-negative value a [Read] returned,
    that call being the last one of the run, and the value is passed on
    unchanged.  In no case is the result a positive value below [len].
    (The transport returns at most what it was asked for, and [len] is
    the size of a buffer, hence at most [SSIZE_MAX]; fuel above [len]
    is enough, as every call but the last one moves a byte or more.) *)
Theorem ReadFull_exact_or_sentinel
        (rt : tcp_runtime) (fuel : nat) (buf : addr) (len : Z)
        (nt poll : bool) (w : world (tcpconn_t rt)) :
  read_bounded rt ->
  0 <= len <= SSIZE_MAX ->
  (Z.to_nat len < fuel)%nat ->
  exists ret w' rets,
    TcpConn.ReadFull rt fuel buf len nt poll w = Done ret w' /\
    log w' = log w ++ read_events buf len nt poll 0 rets /\
    ((ret = len /\ Forall (fun r => 0 < r) rets /\ sum_Z rets = len) \/
     (ret <= 0 /\
      exists pre, rets = pre ++ [ret] /\ Forall (fun r => 0 < r) pre /\
                  sum_Z pre < len)) /\
    ~ (0 < ret < len).
Proof.
  intros Hrb Hlen Hfuel.
  destruct (ReadFull_loop_run rt buf len nt poll Hlen Hrb fuel 0 w)
    as (ret & w' & rets & Hrun & Hlog & Hshape); [lia | |].
  { now rewrite Z.sub_0_r. }
  exists ret, w', rets. split; [exact Hrun|]. split; [exact Hlog|]. split.
  - destruct Hshape as [(He & Hall & Hsum) | (Hle & pre & Hpre & Hall & Hsum)].
    + left. repeat split; auto.
    + right. split; [exact Hle|]. exists pre. repeat split; auto.
  - destruct Hshape as [(He & _) | (Hle & _)]; lia.
Qed.

Lemma ReadFull_exact_or_sentinel_witness :
  exists ret w' rets,
    TcpConn.ReadFull Pipe.rt 11 5000 10 false true
                     (Pipe.start [] [x61; x62; x63; x64; x65; x66; x67; x68])
    = Done ret w' /\
    log w' = [] ++ read_events 5000 10 false true 0 rets /\
    ((ret = 10 /\ Forall (fun r => 0 < r) rets /\ sum_Z rets = 10) \/
     (ret <= 0 /\
      exists pre, rets = pre ++ [ret] /\ Forall (fun r => 0 < r) pre /\
                  sum_Z pre < 10)) /\
    ~ (0 < ret < 10).
Proof.
  apply (ReadFull_exact_or_sentinel Pipe.rt 11 5000 10 false true
           (Pipe.start [] [x61; x62; x63; x64; x65; x66; x67; x68])
           pipe_read_bounded).
  - vm_compute. split; discriminate.
  - vm_compute. lia.
Defined.

(** C3.  The [Write] calls of a run of [WriteFull] are a run of positive
    returns, ended in one of three ways: the returns add up to [len] and
    [len] is returned; or a call returns a negative value, the loop
    stops there and that value is returned; or a call returns 0 and the
    process is aborted by the assertion.  A zero return is hence never
    handed back to the caller and never followed by another call, and
    the loop does not run out of fuel.  (Same assumptions as for
    [ReadFull].) *)
Theorem WriteFull_negative_or_fatal
        (rt : tcp_runtime) (fuel : nat) (buf : addr) (len : Z)
        (nt poll : bool) (w : world (tcpconn_t rt)) :
  write_bounded rt ->
  0 <= len <= SSIZE_MAX ->
  (Z.to_nat len < fuel)%nat ->
  exists w' rets,
    log w' = log w ++ write_events buf len nt poll 0 rets /\
    heap w' = heap w /\
    ((TcpConn.WriteFull rt fuel buf len nt poll w = Done len w' /\
      Forall (fun r => 0 < r) rets /\ sum_Z rets = len) \/
     (exists ret pre,
         TcpConn.WriteFull rt fuel buf len nt poll w = Done ret w' /\
         ret < 0 /\ rets = pre ++ [ret] /\ Forall (fun r => 0 < r) pre /\
         sum_Z pre < len) \/
     (exists pre,
         TcpConn.WriteFull rt fuel buf len nt poll w = Fatal w' /\
         rets = pre ++ [0] /\ Forall (fun r => 0 < r) pre /\
         sum_Z pre < len)).
Proof.
  intros Hwb Hlen Hfuel.
  destruct (WriteFull_loop_run rt buf len nt poll Hlen Hwb fuel 0 w)
    as (w' & rets & Hlog & Hheap & Hshape); [lia | |].
  { now rewrite Z.sub_0_r. }
  exists w', rets. split; [exact Hlog|]. split; [exact Hheap|].
  exact Hshape.
Qed.

Lemma WriteFull_negative_or_fatal_witness :
  exists w' rets,
    log w' = [] ++ write_events 5000 3 true false 0 rets /\
    heap w' = heap (Pipe.start [(5000, [x61; x62; x63])] tt) /\
    ((TcpConn.WriteFull (Pipe.broken 0) 4 5000 3 true false
                        (Pipe.start [(5000, [x61; x62; x63])] tt)
      = Done 3 w' /\
      Forall (fun r => 0 < r) rets /\ sum_Z rets = 3) \/
     (exists ret pre,
         TcpConn.WriteFull (Pipe.broken 0) 4 5000 3 true false
                           (Pipe.start [(5000, [x61; x62; x63])] tt)
         = Done ret w' /\
         ret < 0 /\ rets = pre ++ [ret] /\ Forall (fun r => 0 < r) pre /\
         sum_Z pre < 3) \/
     (exists pre,
         TcpConn.WriteFull (Pipe.broken 0) 4 5000 3 true false
                           (Pipe.start [(5000, [x61; x62; x63])] tt)
         = Fatal w' /\
         rets = pre ++ [0] /\ Forall (fun r => 0 < r) pre /\
         sum_Z pre < 3)).
Proof.
  apply (WriteFull_negative_or_fatal (Pipe.broken 0) 4 5000 3 true false
           (Pipe.start [(5000, [x61; x62; x63])] tt)
           (broken_write_bounded 0 (Z.le_refl 0))).
  - vm_compute. split; discriminate.
  - vm_compute. lia.
Defined.


(** C9.  With length 0 both [ReadFull] and [WriteFull] return 0 and
    leave the state as it was: memory, connection and log are unchanged,
    so neither [Read] nor [Write] was called.  And 0 is also what
    [ReadFull] returns for a positive length when its first [Read]
    returns 0, the sign of a closed stream: the return value alone does
    not tell the two apart. *)
Theorem full_transfer_of_length_zero
        (rt : tcp_runtime) (fuel : nat) (buf : addr) (nt poll : bool)
        (w : world (tcpconn_t rt)) :
  TcpConn.ReadFull rt (S fuel) buf 0 nt poll w = Done 0 w /\
  TcpConn.WriteFull rt (S fuel) buf 0 nt poll w = Done 0 w /\
  (forall len data c',
      0 < len <= SSIZE_MAX ->
      tcp_read_op rt (c_ w) len nt poll = (0, data, c') ->
      exists w',
        TcpConn.ReadFull rt (S fuel) buf len nt poll w = Done 0 w' /\
        log w' = log w ++ [EvTcpRead buf len nt poll 0]).
Proof.
  split; [reflexivity|]. split; [reflexivity|].
  intros len data c' Hlen Hop. unfold TcpConn.ReadFull.
  rewrite ReadFull_loop_step by lia.
  rewrite Z.sub_0_r, Hop. cbv zeta. cbn [Z.leb Z.compare].
  eexists. split; [reflexivity|]. simpl. now rewrite Z.add_0_r.
Qed.

Lemma full_transfer_of_length_zero_witness :
  TcpConn.ReadFull Pipe.rt 1 5000 0 false false (Pipe.start [] []) =
  Done 0 (Pipe.start [] []) /\
  TcpConn.WriteFull Pipe.rt 1 5000 0 false false (Pipe.start [] []) =
  Done 0 (Pipe.start [] []) /\
  exists w',
    TcpConn.ReadFull Pipe.rt 1 5000 4 false false (Pipe.start [] []) =
    Done 0 w' /\
    log w' = [EvTcpRead 5000 4 false false 0].
Proof.
  destruct (full_transfer_of_length_zero Pipe.rt 0 5000 false false
              (Pipe.start [] [])) as (Hr & Hw & Hclosed).
  split; [exact Hr|]. split; [exact Hw|].
  apply (Hclosed 4 [] []).
  - vm_compute. split; [reflexivity | discriminate].
  - reflexivity.
Defined.

(** ** UdpConn *)

(** C10.  When [nt] or [poll] is set, [UdpConn::Read] and
    [UdpConn::Write] abort the process in the state they were called in:
    no datagram primitive is called (those take no hints at all).
    [TcpConn::Read] and [TcpConn::Write] hand both hints to the stream
    primitive. *)
Theorem UdpConn_hints_are_fatal
        (urt : udp_runtime) (trt : tcp_runtime) (buf : addr) (len : Z)
        (nt poll : bool)
        (w : world (udpconn_t urt)) (wt : world (tcpconn_t trt)) :
  nt || poll = true ->
  UdpConn.Read urt buf len nt poll w = Fatal w /\
  UdpConn.Write urt buf len nt poll w = Fatal w /\
  TcpConn.Read trt buf len nt poll wt =
    (let '(r, data, c') := tcp_read_op trt (c_ wt) len nt poll in
     Done r {| heap := store (heap wt) buf len data; c_ := c';
               log := log wt ++ [EvTcpRead buf len nt poll r] |}) /\
  TcpConn.Write trt buf len nt poll wt =
    (let '(r, c') :=
       tcp_write_op trt (c_ wt) (load (heap wt) buf len) nt poll in
     Done r {| heap := heap wt; c_ := c';
               log := log wt ++ [EvTcpWrite buf len nt poll r] |}).
Proof.
  intros Hhint. unfold UdpConn.Read, UdpConn.Write, bind, BUG_ON.
  rewrite Hhint. repeat split; reflexivity.
Qed.

Lemma UdpConn_hints_are_fatal_witness :
  UdpConn.Read Pipe.udp 5000 4 false true (Pipe.start [] [[x61]]) =
  Fatal (Pipe.start [] [[x61]]) /\
  UdpConn.Write Pipe.udp 5000 4 false true (Pipe.start [] [[x61]]) =
  Fatal (Pipe.start [] [[x61]]) /\
  (exists w', TcpConn.Read Pipe.rt 5000 4 false true (Pipe.start [] [x61]) =
              Done 1 w' /\ log w' = [EvTcpRead 5000 4 false true 1]) /\
  (exists w', TcpConn.Write Pipe.rt 5000 4 false true (Pipe.start [] [x61]) =
              Done 4 w' /\ log w' = [EvTcpWrite 5000 4 false true 4]).
Proof.
  destruct (UdpConn_hints_are_fatal Pipe.udp Pipe.rt 5000 4 false true
              (Pipe.start [] [[x61]]) (Pipe.start [] [x61]) eq_refl)
    as (Hr & Hw & Htr & Htw).
  split; [exact Hr|]. split; [exact Hw|]. split.
  - eexists. split; [exact Htr | reflexivity].
  - eexists. split; [exact Htw | reflexivity].
Defined.

(** Without hints the datagram calls go through. *)
Lemma UdpConn_without_hints (urt : udp_runtime) (buf : addr) (len : Z)
      (w : world (udpconn_t urt)) :
  UdpConn.Read urt buf len false false w = UdpConn.udp_read urt buf len w /\
  UdpConn.Write urt buf len false false w = UdpConn.udp_write urt buf len w.
Proof. split; reflexivity. Qed.


(** A call through the [NetConn] interface reaches the method of the
    connection's class. *)
Lemma NetConn_dispatch (urt : udp_runtime) (trt : tcp_runtime) :
  @NetConn.Read _ (UdpConn.UdpConn_NetConn urt) = UdpConn.Read urt /\
  @NetConn.Write _ (UdpConn.UdpConn_NetConn urt) = UdpConn.Write urt /\
  @NetConn.Read _ (TcpConn.TcpConn_NetConn trt) = TcpConn.Read trt /\
  @NetConn.Write _ (TcpConn.TcpConn_NetConn trt) = TcpConn.Write trt.
Proof. repeat split; reflexivity. Qed.

(** ** ReadvFull and WritevFull: one segment *)

(** C2, as the code has it.  A span of static extent 1 goes to the
    scalar full transfer on the segment's pointer and length, whatever
    the length (no threshold is looked at); the outcome is that of the
    scalar call, no [memcpy] is made, and a read writes inside the
    segment only, a write nowhere.  The [(iovec*, int)] overloads build a
    span of dynamic extent, so with one entry too they take the raw
    vectored path. *)
Theorem single_segment_fast_path
        (rt : tcp_runtime) (buf_ : addr) (fuel : nat) (iov0 : iovec)
        (nt poll : bool) (w : world (tcpconn_t rt)) :
  0 <= iov_len iov0 < SIZE_MOD ->
  TcpConn.ReadvFull rt buf_ fuel (FixedSpan [iov0]) nt poll w =
    TcpConn.ReadFull rt fuel (iov_base iov0) (iov_len iov0) nt poll w /\
  TcpConn.WritevFull rt buf_ fuel (FixedSpan [iov0]) nt poll w =
    TcpConn.WriteFull rt fuel (iov_base iov0) (iov_len iov0) nt poll w /\
  (forall w',
      final (TcpConn.ReadvFull rt buf_ fuel (FixedSpan [iov0]) nt poll w)
      = Some w' ->
      touches_only (in_range (iov_base iov0) (iov_len iov0)) w w') /\
  (forall w',
      final (TcpConn.WritevFull rt buf_ fuel (FixedSpan [iov0]) nt poll w)
      = Some w' ->
      touches_only (fun _ => False) w w') /\
  TcpConn.ReadvFull_iovcnt rt buf_ fuel [iov0] 1 nt poll w =
    TcpConn.ReadvFullRaw rt fuel [iov0] nt poll w /\
  TcpConn.WritevFull_iovcnt rt buf_ fuel [iov0] 1 nt poll w =
    TcpConn.WritevFullRaw rt fuel [iov0] nt poll w.
Proof.
  intros Hlen. split; [reflexivity|]. split; [reflexivity|]. split; [|split].
  - intros w' Hfin. cbn [TcpConn.ReadvFull] in Hfin.
    eapply ReadFull_loop_frame; [exact Hlen | | exact Hfin]. lia.
  - intros w' Hfin. cbn [TcpConn.WritevFull] in Hfin.
    eapply WriteFull_loop_frame. exact Hfin.
  - split; reflexivity.
Qed.

Lemma single_segment_fast_path_witness :
  TcpConn.ReadvFull Pipe.rt 0 20 (FixedSpan [seg 5000 200]) false false
                    (Pipe.start [] [x61]) =
  TcpConn.ReadFull Pipe.rt 20 5000 200 false false (Pipe.start [] [x61]) /\
  TcpConn.ReadvFull_iovcnt Pipe.rt 0 20 [seg 5000 200] 1 false false
                           (Pipe.start [] [x61]) =
  TcpConn.ReadvFullRaw Pipe.rt 20 [seg 5000 200] false false
                       (Pipe.start [] [x61]).
Proof.
  destruct (single_segment_fast_path Pipe.rt 0 20 (seg 5000 200) false false
              (Pipe.start [] [x61]))
    as (Hr & _ & _ & _ & Hraw & _).
  - vm_compute. split; [discriminate | reflexivity].
  - split; [exact Hr | exact Hraw].
Defined.

(** C2 as stated fails for the [(iovec*, int)] overloads: with one entry
    they call the vectored primitive of the runtime, which the scalar
    [ReadFull] and [WriteFull] never do. *)
Lemma one_entry_iovcnt_overload_is_not_scalar :
  Pipe.view [] (TcpConn.ReadvFull_iovcnt Pipe.rt 0 20 [seg 5000 1] 1 false false
                                         (Pipe.start [] [x61]))
  = Some (Some 1, [], [EvTcpReadv [seg 5000 1] false false 1]) /\
  Pipe.view [] (TcpConn.ReadFull Pipe.rt 20 5000 1 false false
                                 (Pipe.start [] [x61]))
  = Some (Some 1, [], [EvTcpRead 5000 1 false false 1]) /\
  TcpConn.ReadvFull_iovcnt Pipe.rt 0 20 [seg 5000 1] 1 false false
                           (Pipe.start [] [x61])
  <> TcpConn.ReadFull Pipe.rt 20 5000 1 false false (Pipe.start [] [x61]) /\
  TcpConn.WritevFull_iovcnt Pipe.rt 0 20 [seg 5000 1] 1 false false
                            (Pipe.start [(5000, [x61])] [])
  <> TcpConn.WriteFull Pipe.rt 20 5000 1 false false
                       (Pipe.start [(5000, [x61])] []).
Proof.
  split; [reflexivity|]. split; [reflexivity|]. split.
  - intros H. apply (f_equal (Pipe.view [])) in H. vm_compute in H.
    discriminate H.
  - intros H. apply (f_equal (Pipe.view [])) in H. vm_compute in H.
    discriminate H.
Qed.


(** ** ReadvFull and WritevFull: the path through the scratch buffer *)

Section SmallTotal.
Variable rt : tcp_runtime.
Variable buf_ : addr.
Variables (fuel : nat) (l : list iovec) (nt poll : bool).
Hypothesis two_or_more : (2 <= length l)%nat.
Hypothesis sizes : wf_iov l = true.
Hypothesis small : total_len l <= TcpConn.kIOVCopyThresh.

Lemma small_accumulate :
  TcpConn.accumulate l = total_len l /\
  (TcpConn.accumulate l <=? TcpConn.kIOVCopyThresh) = true.
Proof.
  pose proof thresh_lt as Ht.
  assert (Hacc : TcpConn.accumulate l = total_len l)
    by (apply accumulate_total; [exact sizes | lia]).
  split; [exact Hacc|]. rewrite Hacc. apply Z.leb_le. exact small.
Qed.

(** The read: [ReadFull] into [buf_], then the scatter, whatever
    [ReadFull] returned. *)
Lemma ReadvFull_small_run (w : world (tcpconn_t rt)) :
  TcpConn.ReadvFull rt buf_ fuel (FixedSpan l) nt poll w =
  match TcpConn.ReadFull rt fuel buf_ (total_len l) nt poll w with
  | Done ret w1 =>
      Done ret {| heap := copy_mem true buf_ 0 l (heap w1);
                  c_ := c_ w1;
                  log := log w1 ++ scatter_events buf_ l |}
  | Fatal w1 => Fatal w1
  | Stuck => Stuck
  end.
Proof.
  pose proof thresh_lt as Ht.
  destruct small_accumulate as [Hacc Hle].
  assert (Hbody :
            TcpConn.ReadvFull rt buf_ fuel (FixedSpan l) nt poll w =
            (ret <- TcpConn.ReadFull rt fuel buf_ (TcpConn.accumulate l) nt poll ;;
             detail.scatter_to buf_ l ;;;
             mret ret) w).
  { destruct l as [| a [| b r]]; simpl in two_or_more; try lia.
    unfold TcpConn.ReadvFull. now rewrite Hle. }
  rewrite Hbody, Hacc. unfold bind.
  destruct (TcpConn.ReadFull rt fuel buf_ (total_len l) nt poll w)
    as [ret w1 | w1 |]; try reflexivity.
  unfold detail.scatter_to. rewrite general_scatter_gather_run.
  rewrite scatter_log by (auto; lia). reflexivity.
Qed.

(** The write: the gather into [buf_], then [WriteFull] of [buf_]. *)
Lemma WritevFull_small_run (w : world (tcpconn_t rt)) :
  TcpConn.WritevFull rt buf_ fuel (FixedSpan l) nt poll w =
  TcpConn.WriteFull rt fuel buf_ (total_len l) nt poll
                    {| heap := copy_mem false buf_ 0 l (heap w);
                       c_ := c_ w;
                       log := log w ++ gather_events buf_ l |}.
Proof.
  pose proof thresh_lt as Ht.
  destruct small_accumulate as [Hacc Hle].
  assert (Hbody :
            TcpConn.WritevFull rt buf_ fuel (FixedSpan l) nt poll w =
            (detail.gather_from buf_ l ;;;
             TcpConn.WriteFull rt fuel buf_ (TcpConn.accumulate l) nt poll) w).
  { destruct l as [| a [| b r]]; simpl in two_or_more; try lia.
    unfold TcpConn.WritevFull. now rewrite Hle. }
  rewrite Hbody, Hacc. unfold bind, detail.gather_from.
  rewrite general_scatter_gather_run.
  rewrite gather_log by (auto; lia). reflexivity.
Qed.

End SmallTotal.

(** C4.  For a span of static extent with two or more segments whose
    lengths add up to at most 128, [ReadvFull] is one [ReadFull] of the
    total length into [buf_] followed by the scatter: the copies for
    the segments in list order, segment [i] from [buf_ + offset_i]; the
    value of [ReadFull] is returned.  When the segments overlap neither
    one another nor the bytes of [buf_] in use, segment [i] then holds
    the bytes [buf_] held at [[offset_i, offset_i + len_i)] after the
    [ReadFull], and nothing outside the segments has changed. *)
Theorem ReadvFull_small_total
        (rt : tcp_runtime) (buf_ : addr) (fuel : nat) (l : list iovec)
        (nt poll : bool) (w : world (tcpconn_t rt)) :
  (2 <= length l)%nat ->
  wf_iov l = true ->
  total_len l <= TcpConn.kIOVCopyThresh ->
  match TcpConn.ReadFull rt fuel buf_ (total_len l) nt poll w with
  | Done ret w1 =>
      exists w2,
        TcpConn.ReadvFull rt buf_ fuel (FixedSpan l) nt poll w = Done ret w2 /\
        c_ w2 = c_ w1 /\
        log w2 = log w1 ++ scatter_events buf_ l /\
        (forall a, ~ in_segs l a -> heap w2 a = heap w1 a) /\
        (segs_avoid buf_ (total_len l) l = true ->
         pairwise_disjoint l = true ->
         forall i s, nth_error l i = Some s ->
           load (heap w2) (iov_base s) (iov_len s) =
           load (heap w1) (buf_ + offset_of l i) (iov_len s))
  | Fatal w1 =>
      TcpConn.ReadvFull rt buf_ fuel (FixedSpan l) nt poll w = Fatal w1
  | Stuck =>
      TcpConn.ReadvFull rt buf_ fuel (FixedSpan l) nt poll w = Stuck
  end.
Proof.
  intros Hlen Hwf Hsmall. pose proof thresh_lt as Ht.
  rewrite (ReadvFull_small_run rt buf_ fuel l nt poll Hlen Hwf Hsmall w).
  destruct (TcpConn.ReadFull rt fuel buf_ (total_len l) nt poll w)
    as [ret w1 | w1 |]; try reflexivity.
  eexists. split; [reflexivity|]. cbn [heap c_ log].
  split; [reflexivity|]. split; [reflexivity|]. split.
  - intros a Ha. apply scatter_outside. intros s Hs Hin.
    apply Ha. now exists s.
  - intros Hav Hpw i s Hi.
    rewrite (scatter_segment buf_ l 0 (heap w1)) with (i := i); auto; try lia.
    + f_equal. lia.
    + rewrite Z.add_0_r. now apply segs_avoid_clear.
Qed.

Lemma ReadvFull_small_total_witness :
  exists w2,
    TcpConn.ReadvFull Pipe.rt 0 20
                      (FixedSpan [seg 5000 2; seg 6000 3; seg 7000 1])
                      false false
                      (Pipe.start [] [x61; x62; x63; x64; x65; x66])
    = Done 6 w2 /\
    load (heap w2) 5000 2 = [x61; x62] /\
    load (heap w2) 6000 3 = [x63; x64; x65] /\
    load (heap w2) 7000 1 = [x66].
Proof.
  pose proof (ReadvFull_small_total Pipe.rt 0 20
                [seg 5000 2; seg 6000 3; seg 7000 1] false false
                (Pipe.start [] [x61; x62; x63; x64; x65; x66])) as H.
  assert (H2 : (2 <= length [seg 5000 2; seg 6000 3; seg 7000 1])%nat)
    by (simpl; lia).
  assert (Hs : total_len [seg 5000 2; seg 6000 3; seg 7000 1]
               <= TcpConn.kIOVCopyThresh) by (vm_compute; discriminate).
  specialize (H H2 eq_refl Hs).
  destruct (TcpConn.ReadFull Pipe.rt 20 0
              (total_len [seg 5000 2; seg 6000 3; seg 7000 1]) false false
              (Pipe.start [] [x61; x62; x63; x64; x65; x66]))
    as [ret w1 | w1 |] eqn:E; try discriminate E.
  injection E as Eret Ew1.
  destruct H as (w2 & Hrun & _ & _ & _ & Hseg).
  exists w2. subst ret w1. split; [exact Hrun|]. split; [|split].
  - etransitivity;
      [exact (Hseg eq_refl eq_refl 0%nat (seg 5000 2) eq_refl) | reflexivity].
  - etransitivity;
      [exact (Hseg eq_refl eq_refl 1%nat (seg 6000 3) eq_refl) | reflexivity].
  - etransitivity;
      [exact (Hseg eq_refl eq_refl 2%nat (seg 7000 1) eq_refl) | reflexivity].
Defined.


(** C5.  For a span of static extent with two or more segments whose
    lengths add up to at most 128, [WritevFull] first gathers: it makes
    the copies of the read-side scatter with source and destination
    exchanged, in list order, segment [i] to [buf_ + offset_i], and
    writes nowhere but into the first [total_len l] bytes of [buf_];
    when no segment overlaps those bytes they then hold the bytes of
    the segments in list order.  After that it is [WriteFull] of [buf_]
    with the total length, whose outcome is the outcome of the call. *)
Theorem WritevFull_small_total
        (rt : tcp_runtime) (buf_ : addr) (fuel : nat) (l : list iovec)
        (nt poll : bool) (w : world (tcpconn_t rt)) :
  (2 <= length l)%nat ->
  wf_iov l = true ->
  total_len l <= TcpConn.kIOVCopyThresh ->
  exists w1,
    detail.gather_from buf_ l w = Done tt w1 /\
    c_ w1 = c_ w /\
    log w1 = log w ++ map mirror (scatter_events buf_ l) /\
    (forall a, ~ in_range buf_ (total_len l) a -> heap w1 a = heap w a) /\
    (segs_avoid buf_ (total_len l) l = true ->
     load (heap w1) buf_ (total_len l) = load_iov (heap w) l) /\
    TcpConn.WritevFull rt buf_ fuel (FixedSpan l) nt poll w =
    TcpConn.WriteFull rt fuel buf_ (total_len l) nt poll w1.
Proof.
  intros Hlen Hwf Hsmall. pose proof thresh_lt as Ht.
  exists {| heap := copy_mem false buf_ 0 l (heap w);
            c_ := c_ w;
            log := log w ++ gather_events buf_ l |}.
  split.
  { unfold detail.gather_from. rewrite general_scatter_gather_run.
    now rewrite gather_log by (auto; lia). }
  cbn [heap c_ log]. split; [reflexivity|]. split; [reflexivity|]. split; [|split].
  - intros a Ha. apply gather_outside; auto; try lia.
    now rewrite Z.add_0_r.
  - intros Hav.
    rewrite <- (gather_content buf_ l 0 (heap w)); auto; try lia.
    + now rewrite Z.add_0_r.
    + rewrite Z.add_0_r. now apply segs_avoid_clear.
  - apply WritevFull_small_run; assumption.
Qed.

Lemma WritevFull_small_total_witness :
  exists w1,
    detail.gather_from 0 [seg 5000 2; seg 6000 3; seg 7000 1]
                       (Pipe.start [(5000, [x61; x62]); (6000, [x63; x64; x65]);
                                    (7000, [x66])] []) = Done tt w1 /\
    load (heap w1) 0 6 = [x61; x62; x63; x64; x65; x66] /\
    TcpConn.WritevFull Pipe.rt 0 20
                       (FixedSpan [seg 5000 2; seg 6000 3; seg 7000 1])
                       false false
                       (Pipe.start [(5000, [x61; x62]); (6000, [x63; x64; x65]);
                                    (7000, [x66])] []) =
    TcpConn.WriteFull Pipe.rt 20 0 6 false false w1.
Proof.
  assert (H2 : (2 <= length [seg 5000 2; seg 6000 3; seg 7000 1])%nat)
    by (simpl; lia).
  assert (Hs : total_len [seg 5000 2; seg 6000 3; seg 7000 1]
               <= TcpConn.kIOVCopyThresh) by (vm_compute; discriminate).
  destruct (WritevFull_small_total Pipe.rt 0 20
              [seg 5000 2; seg 6000 3; seg 7000 1] false false
              (Pipe.start [(5000, [x61; x62]); (6000, [x63; x64; x65]);
                           (7000, [x66])] []) H2 eq_refl Hs)
    as (w1 & Hg & _ & _ & _ & Hload & Hrun).
  exists w1. split; [exact Hg|]. split; [|exact Hrun].
  etransitivity; [exact (Hload eq_refl) | reflexivity].
Defined.

(** ** Gather, then scatter *)

(** C6.  Let the segments [src] hold a payload and let [dst] be segments
    of the same total length, at most 128.  A gather of [src] into a
    buffer followed by a scatter of the buffer into [dst] leaves the
    payload in [dst], however the two lists cut the length into
    segments.  Each of the two makes one copy per segment, in list order
    ([gather_events], [scatter_events]), and the copies move
    [total_len] bytes in all.  (No segment overlaps the bytes of the
    buffer in use, and the segments of [dst] do not overlap one
    another.) *)
Theorem gather_then_scatter_roundtrip
        {C : Type} (buf : addr) (src dst : list iovec) (payload : list byte)
        (w : world C) :
  wf_iov src = true ->
  wf_iov dst = true ->
  load_iov (heap w) src = payload ->
  total_len src = Z.of_nat (length payload) ->
  total_len dst = Z.of_nat (length payload) ->
  Z.of_nat (length payload) <= TcpConn.kIOVCopyThresh ->
  segs_avoid buf (total_len src) src = true ->
  segs_avoid buf (total_len dst) dst = true ->
  pairwise_disjoint dst = true ->
  exists w1 w2,
    detail.gather_from buf src w = Done tt w1 /\
    detail.scatter_to buf dst w1 = Done tt w2 /\
    load (heap w1) buf (Z.of_nat (length payload)) = payload /\
    load_iov (heap w2) dst = payload /\
    log w1 = log w ++ gather_events buf src /\
    log w2 = log w1 ++ scatter_events buf dst /\
    bytes_copied (gather_events buf src) = total_len src /\
    bytes_copied (scatter_events buf dst) = total_len dst.
Proof.
  intros Hws Hwd Hpay Hls Hld Hsmall Has Had Hpw. pose proof thresh_lt as Ht.
  exists {| heap := copy_mem false buf 0 src (heap w);
            c_ := c_ w;
            log := log w ++ gather_events buf src |}.
  exists {| heap := copy_mem true buf 0 dst (copy_mem false buf 0 src (heap w));
            c_ := c_ w;
            log := (log w ++ gather_events buf src) ++ scatter_events buf dst |}.
  assert (Hg : load (copy_mem false buf 0 src (heap w)) buf
                    (Z.of_nat (length payload)) = payload).
  { rewrite <- Hls, <- Hpay.
    rewrite <- (gather_content buf src 0 (heap w)); auto; try lia.
    - now rewrite Z.add_0_r.
    - rewrite Z.add_0_r. now apply segs_avoid_clear. }
  split.
  { unfold detail.gather_from. rewrite general_scatter_gather_run.
    now rewrite gather_log by (auto; lia). }
  split.
  { unfold detail.scatter_to. rewrite general_scatter_gather_run.
    cbn [heap c_ log]. now rewrite scatter_log by (auto; lia). }
  cbn [heap c_ log]. split; [exact Hg|]. split; [|split; [reflexivity|]].
  - rewrite scatter_content; auto; try lia.
    + rewrite Z.add_0_r, Hld. exact Hg.
    + rewrite Z.add_0_r. now apply segs_avoid_clear.
  - split; [reflexivity|]. split.
    + rewrite <- gather_log by (auto; lia). apply copy_log_bytes.
    + rewrite <- scatter_log by (auto; lia). apply copy_log_bytes.
Qed.

Lemma gather_then_scatter_roundtrip_witness :
  exists w1 w2 : world unit,
    detail.gather_from 0 [seg 5000 3; seg 6000 1; seg 7000 4]
                       (Pipe.start [(5000, [x61; x62; x63]); (6000, [x64]);
                                    (7000, [x65; x66; x67; x68])] tt)
    = Done tt w1 /\
    detail.scatter_to 0 [seg 8000 1; seg 8001 1; seg 9000 6] w1 = Done tt w2 /\
    load_iov (heap w2) [seg 8000 1; seg 8001 1; seg 9000 6] =
    [x61; x62; x63; x64; x65; x66; x67; x68].
Proof.
  destruct (gather_then_scatter_roundtrip 0
              [seg 5000 3; seg 6000 1; seg 7000 4]
              [seg 8000 1; seg 8001 1; seg 9000 6]
              [x61; x62; x63; x64; x65; x66; x67; x68]
              (Pipe.start [(5000, [x61; x62; x63]); (6000, [x64]);
                           (7000, [x65; x66; x67; x68])] tt))
    as (w1 & w2 & Hg & Hs & _ & Hd & _); try reflexivity.
  - vm_compute. discriminate.
  - exists w1, w2. split; [exact Hg|]. split; [exact Hs | exact Hd].
Defined.


(** ** The scratch buffer off the small-total path *)

Lemma scratch_kept {C} (buf_ : addr) (l : list iovec) (P : Z -> Prop)
      (w w' : world C) :
  segs_avoid buf_ TcpConn.kIOVCopyThresh l = true ->
  (forall a, P a -> in_segs l a) ->
  touches_only P w w' ->
  (forall a, in_range buf_ TcpConn.kIOVCopyThresh a -> heap w' a = heap w a) /\
  load (heap w') buf_ TcpConn.kIOVCopyThresh =
  load (heap w) buf_ TcpConn.kIOVCopyThresh /\
  exists evs, log w' = log w ++ evs /\ no_memcpy evs.
Proof.
  intros Hav HP [Hheap Hlog].
  assert (Hkeep : forall a, in_range buf_ TcpConn.kIOVCopyThresh a ->
                            heap w' a = heap w a).
  { intros a Ha. apply Hheap. intros Hp.
    destruct (HP a Hp) as (s & Hs & Hin).
    exact (segs_avoid_spec _ _ _ _ _ Hav Hs Hin Ha). }
  split; [exact Hkeep|]. split; [|exact Hlog].
  apply load_ext. exact Hkeep.
Qed.

(** C7.  A call of [ReadvFull] or [WritevFull] that does not take the
    small-total path (static extent, more than one segment, total length
    at most 128), that is a call on the single-segment fast path, on the
    raw vectored path or with a span of dynamic extent, makes no
    [memcpy] and ends, whether it returns or aborts, with the 128 bytes
    of [buf_] as they were.  (The caller's segments do not overlap
    [buf_], a private member.) *)
Theorem scratch_untouched_off_small_path
        (rt : tcp_runtime) (buf_ : addr) (fuel : nat) (iov : span)
        (nt poll : bool) (w w' : world (tcpconn_t rt)) :
  small_path iov = false ->
  wf_iov (span_elems iov) = true ->
  segs_avoid buf_ TcpConn.kIOVCopyThresh (span_elems iov) = true ->
  final (TcpConn.ReadvFull rt buf_ fuel iov nt poll w) = Some w' \/
  final (TcpConn.WritevFull rt buf_ fuel iov nt poll w) = Some w' ->
  (forall a, in_range buf_ TcpConn.kIOVCopyThresh a -> heap w' a = heap w a) /\
  load (heap w') buf_ TcpConn.kIOVCopyThresh =
  load (heap w) buf_ TcpConn.kIOVCopyThresh /\
  exists evs, log w' = log w ++ evs /\ no_memcpy evs.
Proof.
  intros Hpath Hwf Hav Hfin.
  assert (Hraw : forall l,
             span_elems iov = l ->
             final (TcpConn.ReadvFullRaw rt fuel l nt poll w) = Some w' \/
             final (TcpConn.WritevFullRaw rt fuel l nt poll w) = Some w' ->
             touches_only (in_segs l) w w').
  { intros l _ [H | H].
    - eapply ReadvFullRaw_loop_frame. exact H.
    - eapply touches_only_weaken; [|eapply WritevFullRaw_loop_frame; exact H].
      intros a [].
  }
  apply (scratch_kept buf_ (span_elems iov) (in_segs (span_elems iov)));
    [exact Hav | auto |].
  destruct iov as [l | l]; cbn [span_elems] in *.
  - destruct l as [| a [| b r]].
    + (* extent 0: a transfer of no byte and a scatter or gather of no
         segment *)
      apply touches_only_weaken with (P := in_range buf_ 0).
      { unfold in_range. intros x Hx. lia. }
      unfold TcpConn.ReadvFull, TcpConn.WritevFull in Hfin.
      cbn [TcpConn.accumulate fold_left Z.leb Z.compare TcpConn.kIOVCopyThresh]
        in Hfin.
      unfold detail.scatter_to, detail.gather_from, bind in Hfin.
      cbn [detail.general_scatter_gather] in Hfin. unfold mret in Hfin.
      destruct Hfin as [H | H].
      * apply (ReadFull_loop_frame rt buf_ 0 nt poll ltac:(split; [lia | reflexivity])
                                   fuel 0 w w' ltac:(lia)).
        unfold TcpConn.ReadFull in H.
        destruct (TcpConn.ReadFull_loop rt fuel buf_ 0 0 nt poll w); exact H.
      * eapply touches_only_weaken;
          [|eapply WriteFull_loop_frame; exact H].
        intros x [].
    + apply wf_iov_cons in Hwf. destruct Hwf as [Ha _].
      apply touches_only_weaken with (P := in_range (iov_base a) (iov_len a)).
      { intros x Hx. exists a. split; [now left | exact Hx]. }
      destruct Hfin as [H | H].
      * eapply ReadFull_loop_frame; [exact Ha | | exact H]. lia.
      * eapply touches_only_weaken;
          [|eapply WriteFull_loop_frame; exact H].
        intros x [].
    + cbn [small_path length Nat.leb andb] in Hpath.
      apply (Hraw _ eq_refl).
      unfold TcpConn.ReadvFull, TcpConn.WritevFull in Hfin.
      rewrite Hpath in Hfin. exact Hfin.
  - apply (Hraw _ eq_refl). exact Hfin.
Qed.

Lemma scratch_untouched_off_small_path_witness :
  exists w',
    final (TcpConn.ReadvFull Pipe.rt 0 20
             (FixedSpan [seg 5000 100; seg 6000 100]) false false
             (Pipe.start [(0, [x61; x62])] [x63; x64; x65])) = Some w' /\
    load (heap w') 0 TcpConn.kIOVCopyThresh =
    load (heap (Pipe.start [(0, [x61; x62])] [x63; x64; x65])) 0
         TcpConn.kIOVCopyThresh /\
    load (heap w') 5000 3 = [x63; x64; x65].
Proof.
  eexists. split; [reflexivity|]. split; [|reflexivity].
  apply (scratch_untouched_off_small_path Pipe.rt 0 20
           (FixedSpan [seg 5000 100; seg 6000 100]) false false
           (Pipe.start [(0, [x61; x62])] [x63; x64; x65]) _
           eq_refl eq_refl eq_refl (or_introl eq_refl)).
Defined.

(** ** ReadvFull when the read fails *)

(** C8.  On the small-total path the scatter follows the [ReadFull] also
    when that returned a zero or negative value: all the copies are
    made, the caller's segments then hold what [buf_] held after the
    failed read, and the zero or negative value is returned. *)
Theorem ReadvFull_scatters_after_failed_read
        (rt : tcp_runtime) (buf_ : addr) (fuel : nat) (l : list iovec)
        (nt poll : bool) (w w1 : world (tcpconn_t rt)) (ret : Z) :
  (2 <= length l)%nat ->
  wf_iov l = true ->
  total_len l <= TcpConn.kIOVCopyThresh ->
  TcpConn.ReadFull rt fuel buf_ (total_len l) nt poll w = Done ret w1 ->
  ret <= 0 ->
  exists w2,
    TcpConn.ReadvFull rt buf_ fuel (FixedSpan l) nt poll w = Done ret w2 /\
    log w2 = log w1 ++ scatter_events buf_ l /\
    bytes_copied (scatter_events buf_ l) = total_len l /\
    (segs_avoid buf_ (total_len l) l = true ->
     pairwise_disjoint l = true ->
     load_iov (heap w2) l = load (heap w1) buf_ (total_len l)).
Proof.
  intros Hlen Hwf Hsmall Hread Hret. pose proof thresh_lt as Ht.
  rewrite (ReadvFull_small_run rt buf_ fuel l nt poll Hlen Hwf Hsmall w), Hread.
  eexists. split; [reflexivity|]. cbn [heap log].
  split; [reflexivity|]. split.
  - rewrite <- scatter_log by (auto; lia). apply copy_log_bytes.
  - intros Hav Hpw. rewrite scatter_content; auto; try lia.
    + now rewrite Z.add_0_r.
    + rewrite Z.add_0_r. now apply segs_avoid_clear.
Qed.

Lemma ReadvFull_scatters_after_failed_read_witness :
  exists w2,
    TcpConn.ReadvFull Pipe.rt 0 20
                      (FixedSpan [seg 5000 2; seg 6000 3; seg 7000 1])
                      false false
                      (Pipe.start [(0, [x73; x74; x61; x6c; x65; x21]);
                                   (5000, [x61; x62])] [])
    = Done 0 w2 /\
    load_iov (heap w2) [seg 5000 2; seg 6000 3; seg 7000 1] =
    [x73; x74; x61; x6c; x65; x21].
Proof.
  assert (H2 : (2 <= length [seg 5000 2; seg 6000 3; seg 7000 1])%nat)
    by (simpl; lia).
  assert (Hs : total_len [seg 5000 2; seg 6000 3; seg 7000 1]
               <= TcpConn.kIOVCopyThresh) by (vm_compute; discriminate).
  assert (H0 : 0 <= 0) by lia.
  destruct (ReadvFull_scatters_after_failed_read Pipe.rt 0 20
              [seg 5000 2; seg 6000 3; seg 7000 1] false false
              (Pipe.start [(0, [x73; x74; x61; x6c; x65; x21]);
                           (5000, [x61; x62])] [])
              _ 0 H2 eq_refl Hs eq_refl H0)
    as (w2 & Hrun & _ & _ & Hseg).
  exists w2. split; [exact Hrun|].
  etransitivity; [exact (Hseg eq_refl eq_refl) | reflexivity].
Defined.


(** ** Runs on the loop-back pipe *)

(** The scenario of section 8 of the specification: the writer sends
    the segments "ab", "cde", "f"; the reader asks for segments of 2, 3
    and 1 bytes and gets "ab", "cde", "f" and the value 6. *)
Example loopback_ab_cde_f :
  Pipe.view [seg 5000 2; seg 6000 3; seg 7000 1]
    ((TcpConn.WritevFull Pipe.rt 0 20
        (FixedSpan [seg 1000 2; seg 2000 3; seg 3000 1]) false false ;;;
      TcpConn.ReadvFull Pipe.rt 0 20
        (FixedSpan [seg 5000 2; seg 6000 3; seg 7000 1]) false false)
       (Pipe.start [(1000, [x61; x62]); (2000, [x63; x64; x65]); (3000, [x66])]
                   []))
  = Some (Some 6,
          [[x61; x62]; [x63; x64; x65]; [x66]],
          [EvMemcpy 0 1000 2; EvMemcpy 2 2000 3; EvMemcpy 5 3000 1;
           EvTcpWrite 0 6 false false 6;
           EvTcpRead 0 6 false false 6;
           EvMemcpy 5000 0 2; EvMemcpy 6000 2 3; EvMemcpy 7000 5 1]).
Proof. reflexivity. Qed.

(** The pipe moves at most 7 bytes per call: a [ReadFull] of 10 bytes
    takes two calls and returns 10. *)
Example short_reads_are_retried :
  Pipe.view [seg 5000 10]
    (TcpConn.ReadFull Pipe.rt 11 5000 10 false true
       (Pipe.start [] [x61; x62; x63; x64; x65; x66; x67; x68; x69; x6a; x6b]))
  = Some (Some 10,
          [[x61; x62; x63; x64; x65; x66; x67; x68; x69; x6a]],
          [EvTcpRead 5000 10 false true 7; EvTcpRead 5007 3 false true 3]).
Proof. reflexivity. Qed.

(** The peer closes after 6 of 10 bytes: [ReadFull] returns 0, not 6. *)
Example closed_in_mid_transfer :
  Pipe.view []
    (TcpConn.ReadFull Pipe.rt 11 5000 10 false false
       (Pipe.start [] [x61; x62; x63; x64; x65; x66]))
  = Some (Some 0, [],
          [EvTcpRead 5000 10 false false 6; EvTcpRead 5006 4 false false 0]).
Proof. reflexivity. Qed.

(** A send that makes no progress stops the process. *)
Example stalled_write_is_fatal :
  Pipe.view []
    (TcpConn.WriteFull (Pipe.broken 0) 4 5000 3 false false (Pipe.start [] tt))
  = Some (None, [], [EvTcpWrite 5000 3 false false 0]).
Proof. reflexivity. Qed.

(** An error of the transport is handed on. *)
Example write_error_is_returned :
  Pipe.view []
    (TcpConn.WriteFull (Pipe.broken (-104)) 4 5000 3 false false
                       (Pipe.start [] tt))
  = Some (Some (-104), [], [EvTcpWrite 5000 3 false false (-104)]).
Proof. reflexivity. Qed.


(** * Further properties of the code *)

(** ** The full transfers on any transport *)

Section AnyTransport.
Variable rt : tcp_runtime.
Variables (pos : addr) (len : Z) (nt poll : bool).
Hypothesis len_size : 0 <= len < SIZE_MOD.

(** What a run of the loop of [ReadFull] from the state [n] comes to,
    whatever the transport returns. *)
Lemma ReadFull_loop_any :
  forall fuel n w,
    0 <= n < SIZE_MOD ->
    match TcpConn.ReadFull_loop rt fuel pos len n nt poll w with
    | Done r w' =>
        exists evs,
          log w' = log w ++ evs /\
          Forall (read_call_ok pos len nt poll) evs /\
          (r = to_ssize len \/
           (r <= 0 /\ exists evs' b l, evs = evs' ++ [EvTcpRead b l nt poll r]))
    | Fatal w' =>
        exists evs,
          log w' = log w ++ evs /\
          Forall (read_call_ok pos len nt poll) evs /\
          ((len < n /\ evs = []) \/
           exists evs' b l r, evs = evs' ++ [EvTcpRead b l nt poll r] /\ l < r)
    | Stuck => True
    end.
Proof.
  induction fuel as [| fuel IH]; intros n w Hn; [exact I|].
  cbn [TcpConn.ReadFull_loop].
  destruct (n <? len) eqn:Elt.
  - apply Z.ltb_lt in Elt.
    rewrite (to_size_small (len - n)) by lia.
    unfold bind, TcpConn.Read, TcpConn.__tcp_read.
    destruct (tcp_read_op rt (c_ w) (len - n) nt poll) as [[r data] c'].
    assert (Hok : read_call_ok pos len nt poll
                               (EvTcpRead (pos + n) (len - n) nt poll r))
      by (simpl; repeat split; lia).
    destruct (r <=? 0) eqn:Er.
    + apply Z.leb_le in Er. unfold mret.
      exists [EvTcpRead (pos + n) (len - n) nt poll r].
      split; [reflexivity|]. split; [now constructor|].
      right. split; [exact Er|]. now exists [], (pos + n), (len - n).
    + apply Z.leb_gt in Er.
      match goal with
      | |- context [TcpConn.ReadFull_loop rt fuel pos len ?n' nt poll ?w1] =>
          specialize (IH n' w1 (to_size_range _));
          destruct (TcpConn.ReadFull_loop rt fuel pos len n' nt poll w1)
            as [r' w' | w' |]; [| |exact I]
      end.
      * destruct IH as (evs & Hlog & Hall & Hshape). cbn [log] in Hlog.
        exists (EvTcpRead (pos + n) (len - n) nt poll r :: evs).
        split; [rewrite Hlog, <- app_assoc; reflexivity|].
        split; [now constructor|].
        destruct Hshape as [He | (Hle & evs' & b & l & Hevs)]; [now left|].
        right. split; [exact Hle|].
        exists (EvTcpRead (pos + n) (len - n) nt poll r :: evs'), b, l.
        now rewrite Hevs.
      * destruct IH as (evs & Hlog & Hall & Hshape). cbn [log] in Hlog.
        exists (EvTcpRead (pos + n) (len - n) nt poll r :: evs).
        split; [rewrite Hlog, <- app_assoc; reflexivity|].
        split; [now constructor|].
        right.
        destruct Hshape as [(Hover & Hevs) | (evs' & b & l & r0 & Hevs & Hlr)].
        -- subst evs. exists [], (pos + n), (len - n), r.
           split; [reflexivity|].
           destruct (Z_le_gt_dec r (len - n)) as [Hle | Hgt]; [|lia].
           rewrite to_size_small in Hover by lia. lia.
        -- exists (EvTcpRead (pos + n) (len - n) nt poll r :: evs'), b, l, r0.
           split; [now rewrite Hevs | exact Hlr].
  - apply Z.ltb_ge in Elt. unfold bind, assert.
    destruct (n =? len) eqn:Eeq.
    + apply Z.eqb_eq in Eeq. subst n. unfold mret.
      exists []. split; [now rewrite app_nil_r|]. split; [constructor|].
      now left.
    + apply Z.eqb_neq in Eeq. unfold abort.
      exists []. split; [now rewrite app_nil_r|]. split; [constructor|].
      left. split; [lia | reflexivity].
Qed.

(** The same for the loop of [WriteFull]. *)
Lemma WriteFull_loop_any :
  forall fuel n w,
    0 <= n < SIZE_MOD ->
    match TcpConn.WriteFull_loop rt fuel pos len n nt poll w with
    | Done r w' =>
        exists evs,
          log w' = log w ++ evs /\
          Forall (write_call_ok pos len nt poll) evs /\
          (r = to_ssize len \/
           (r < 0 /\ exists evs' b l, evs = evs' ++ [EvTcpWrite b l nt poll r]))
    | Fatal w' =>
        exists evs,
          log w' = log w ++ evs /\
          Forall (write_call_ok pos len nt poll) evs /\
          ((len < n /\ evs = []) \/
           exists evs' b l r,
             evs = evs' ++ [EvTcpWrite b l nt poll r] /\ (r = 0 \/ l < r))
    | Stuck => True
    end.
Proof.
  induction fuel as [| fuel IH]; intros n w Hn; [exact I|].
  cbn [TcpConn.WriteFull_loop].
  destruct (n <? len) eqn:Elt.
  - apply Z.ltb_lt in Elt.
    rewrite (to_size_small (len - n)) by lia.
    unfold bind at 1, TcpConn.Write, TcpConn.__tcp_write.
    destruct (tcp_write_op rt (c_ w) (load (heap w) (pos + n) (len - n)) nt poll)
      as [r c'].
    assert (Hok : write_call_ok pos len nt poll
                                (EvTcpWrite (pos + n) (len - n) nt poll r))
      by (simpl; repeat split; lia).
    destruct (r <? 0) eqn:Er.
    + apply Z.ltb_lt in Er. unfold mret.
      exists [EvTcpWrite (pos + n) (len - n) nt poll r].
      split; [reflexivity|]. split; [now constructor|].
      right. split; [exact Er|]. now exists [], (pos + n), (len - n).
    + apply Z.ltb_ge in Er. unfold bind, assert.
      destruct (0 <? r) eqn:Epos.
      * apply Z.ltb_lt in Epos. unfold mret at 1.
        match goal with
        | |- context [TcpConn.WriteFull_loop rt fuel pos len ?n' nt poll ?w1] =>
            specialize (IH n' w1 (to_size_range _));
            destruct (TcpConn.WriteFull_loop rt fuel pos len n' nt poll w1)
              as [r' w' | w' |]; [| |exact I]
        end.
        -- destruct IH as (evs & Hlog & Hall & Hshape). cbn [log] in Hlog.
           exists (EvTcpWrite (pos + n) (len - n) nt poll r :: evs).
           split; [rewrite Hlog, <- app_assoc; reflexivity|].
           split; [now constructor|].
           destruct Hshape as [He | (Hle & evs' & b & l & Hevs)]; [now left|].
           right. split; [exact Hle|].
           exists (EvTcpWrite (pos + n) (len - n) nt poll r :: evs'), b, l.
           now rewrite Hevs.
        -- destruct IH as (evs & Hlog & Hall & Hshape). cbn [log] in Hlog.
           exists (EvTcpWrite (pos + n) (len - n) nt poll r :: evs).
           split; [rewrite Hlog, <- app_assoc; reflexivity|].
           split; [now constructor|].
           right.
           destruct Hshape as [(Hover & Hevs) | (evs' & b & l & r0 & Hevs & Hlr)].
           ++ subst evs. exists [], (pos + n), (len - n), r.
              split; [reflexivity|]. right.
              destruct (Z_le_gt_dec r (len - n)) as [Hle | Hgt]; [|lia].
              rewrite to_size_small in Hover by lia. lia.
           ++ exists (EvTcpWrite (pos + n) (len - n) nt poll r :: evs'), b, l, r0.
              split; [now rewrite Hevs | exact Hlr].
      * apply Z.ltb_ge in Epos. assert (r = 0) by lia. subst r. unfold abort.
        exists [EvTcpWrite (pos + n) (len - n) nt poll 0].
        split; [reflexivity|]. split; [now constructor|].
        right. exists [], (pos + n), (len - n), 0.
        split; [reflexivity | now left].
  - apply Z.ltb_ge in Elt. unfold bind, assert.
    destruct (n =? len) eqn:Eeq.
    + apply Z.eqb_eq in Eeq. subst n. unfold mret.
      exists []. split; [now rewrite app_nil_r|]. split; [constructor|].
      now left.
    + apply Z.eqb_neq in Eeq. unfold abort.
      exists []. split; [now rewrite app_nil_r|]. split; [constructor|].
      left. split; [lia | reflexivity].
Qed.

End AnyTransport.


(** X1.  Whatever the transport returns, every call a [ReadFull] makes,
    up to its return or abort, is a [Read] with the caller's two hints
    on a range that is not empty and lies inside the caller's buffer
    [[buf, buf+len)]. *)
Theorem ReadFull_calls_inside_buffer
        (rt : tcp_runtime) (fuel : nat) (buf : addr) (len : Z)
        (nt poll : bool) (w w' : world (tcpconn_t rt)) :
  0 <= len < SIZE_MOD ->
  final (TcpConn.ReadFull rt fuel buf len nt poll w) = Some w' ->
  exists evs,
    log w' = log w ++ evs /\ Forall (read_call_ok buf len nt poll) evs.
Proof.
  intros Hlen Hfin. unfold TcpConn.ReadFull in Hfin.
  pose proof (ReadFull_loop_any rt buf len nt poll Hlen fuel 0 w
                                ltac:(split; [lia | reflexivity])) as H.
  destruct (TcpConn.ReadFull_loop rt fuel buf len 0 nt poll w)
    as [r w1 | w1 |]; simpl in Hfin; try discriminate;
    injection Hfin as <-; destruct H as (evs & Hlog & Hall & _);
    exists evs; auto.
Qed.

Lemma ReadFull_calls_inside_buffer_witness :
  exists w',
    final (TcpConn.ReadFull Pipe.rt 11 5000 10 true false
             (Pipe.start [] [x61; x62; x63; x64; x65; x66; x67; x68; x69]))
    = Some w' /\
    exists evs,
      log w' = [] ++ evs /\ Forall (read_call_ok 5000 10 true false) evs.
Proof.
  eexists. split; [reflexivity|].
  apply (ReadFull_calls_inside_buffer Pipe.rt 11 5000 10 true false
           (Pipe.start [] [x61; x62; x63; x64; x65; x66; x67; x68; x69])).
  - vm_compute. split; [discriminate | reflexivity].
  - reflexivity.
Defined.

(** X2.  Whatever the transport returns, every call a [WriteFull] makes
    is a [Write] with the caller's two hints on a range that is not
    empty and lies inside the caller's buffer. *)
Theorem WriteFull_calls_inside_buffer
        (rt : tcp_runtime) (fuel : nat) (buf : addr) (len : Z)
        (nt poll : bool) (w w' : world (tcpconn_t rt)) :
  0 <= len < SIZE_MOD ->
  final (TcpConn.WriteFull rt fuel buf len nt poll w) = Some w' ->
  exists evs,
    log w' = log w ++ evs /\ Forall (write_call_ok buf len nt poll) evs.
Proof.
  intros Hlen Hfin. unfold TcpConn.WriteFull in Hfin.
  pose proof (WriteFull_loop_any rt buf len nt poll Hlen fuel 0 w
                                 ltac:(split; [lia | reflexivity])) as H.
  destruct (TcpConn.WriteFull_loop rt fuel buf len 0 nt poll w)
    as [r w1 | w1 |]; simpl in Hfin; try discriminate;
    injection Hfin as <-; destruct H as (evs & Hlog & Hall & _);
    exists evs; auto.
Qed.

Lemma WriteFull_calls_inside_buffer_witness :
  exists w',
    final (TcpConn.WriteFull Pipe.rt 11 5000 10 true false
             (Pipe.start [(5000, [x61; x62; x63; x64; x65; x66; x67; x68;
                                  x69; x6a])] []))
    = Some w' /\
    exists evs,
      log w' = [] ++ evs /\ Forall (write_call_ok 5000 10 true false) evs.
Proof.
  eexists. split; [reflexivity|].
  apply (WriteFull_calls_inside_buffer Pipe.rt 11 5000 10 true false
           (Pipe.start [(5000, [x61; x62; x63; x64; x65; x66; x67; x68;
                                x69; x6a])] [])).
  - vm_compute. split; [discriminate | reflexivity].
  - reflexivity.
Defined.

(** X3.  Also on a transport that breaks its contract, a [ReadFull] that
    returns, returns [len] or the zero-or-negative value of its last
    [Read]; it aborts (on [assert(n == len)]) only after a [Read] that
    returned more than it was asked for. *)
Theorem ReadFull_on_any_transport
        (rt : tcp_runtime) (fuel : nat) (buf : addr) (len : Z)
        (nt poll : bool) (w : world (tcpconn_t rt)) :
  0 <= len <= SSIZE_MAX ->
  match TcpConn.ReadFull rt fuel buf len nt poll w with
  | Done r w' =>
      r = len \/
      (r <= 0 /\
       exists evs b l, log w' = log w ++ evs ++ [EvTcpRead b l nt poll r])
  | Fatal w' =>
      exists evs b l r,
        log w' = log w ++ evs ++ [EvTcpRead b l nt poll r] /\ l < r
  | Stuck => True
  end.
Proof.
  intros Hlen. pose proof SSIZE_MAX_lt as Hmax. unfold TcpConn.ReadFull.
  pose proof (ReadFull_loop_any rt buf len nt poll ltac:(lia) fuel 0 w
                                ltac:(split; [lia | reflexivity])) as H.
  destruct (TcpConn.ReadFull_loop rt fuel buf len 0 nt poll w)
    as [r w1 | w1 |]; [| |exact I].
  - destruct H as (evs & Hlog & _ & [He | (Hle & evs' & b & l & Hevs)]).
    + left. rewrite He. now apply to_ssize_small.
    + right. split; [exact Hle|]. exists evs', b, l. now rewrite Hlog, Hevs.
  - destruct H as (evs & Hlog & _ & [(Hover & _) | (evs' & b & l & r & Hevs & Hlr)]);
      [lia|].
    exists evs', b, l, r. split; [now rewrite Hlog, Hevs | exact Hlr].
Qed.

Lemma ReadFull_on_any_transport_witness :
  match TcpConn.ReadFull (Pipe.broken 5) 4 5000 3 false false
                         (Pipe.start [] tt) with
  | Done r w' =>
      r = 3 \/
      (r <= 0 /\
       exists evs b l, log w' = [] ++ evs ++ [EvTcpRead b l false false r])
  | Fatal w' =>
      exists evs b l r,
        log w' = [] ++ evs ++ [EvTcpRead b l false false r] /\ l < r
  | Stuck => True
  end.
Proof.
  apply (ReadFull_on_any_transport (Pipe.broken 5) 4 5000 3 false false
           (Pipe.start [] tt)).
  vm_compute. split; discriminate.
Defined.

(** X4.  Also on a transport that breaks its contract, a [WriteFull]
    that returns, returns [len] or the negative value of its last
    [Write]: for [len > 0] it never returns 0.  It aborts only after a
    [Write] that returned 0 or more than it was asked for. *)
Theorem WriteFull_on_any_transport
        (rt : tcp_runtime) (fuel : nat) (buf : addr) (len : Z)
        (nt poll : bool) (w : world (tcpconn_t rt)) :
  0 <= len <= SSIZE_MAX ->
  match TcpConn.WriteFull rt fuel buf len nt poll w with
  | Done r w' =>
      r = len \/
      (r < 0 /\
       exists evs b l, log w' = log w ++ evs ++ [EvTcpWrite b l nt poll r])
  | Fatal w' =>
      exists evs b l r,
        log w' = log w ++ evs ++ [EvTcpWrite b l nt poll r] /\
        (r = 0 \/ l < r)
  | Stuck => True
  end.
Proof.
  intros Hlen. pose proof SSIZE_MAX_lt as Hmax. unfold TcpConn.WriteFull.
  pose proof (WriteFull_loop_any rt buf len nt poll ltac:(lia) fuel 0 w
                                 ltac:(split; [lia | reflexivity])) as H.
  destruct (TcpConn.WriteFull_loop rt fuel buf len 0 nt poll w)
    as [r w1 | w1 |]; [| |exact I].
  - destruct H as (evs & Hlog & _ & [He | (Hle & evs' & b & l & Hevs)]).
    + left. rewrite He. now apply to_ssize_small.
    + right. split; [exact Hle|]. exists evs', b, l. now rewrite Hlog, Hevs.
  - destruct H as (evs & Hlog & _ & [(Hover & _) | (evs' & b & l & r & Hevs & Hlr)]);
      [lia|].
    exists evs', b, l, r. split; [now rewrite Hlog, Hevs | exact Hlr].
Qed.

Lemma WriteFull_on_any_transport_witness :
  match TcpConn.WriteFull (Pipe.broken 5) 4 5000 3 false false
                          (Pipe.start [] tt) with
  | Done r w' =>
      r = 3 \/
      (r < 0 /\
       exists evs b l, log w' = [] ++ evs ++ [EvTcpWrite b l false false r])
  | Fatal w' =>
      exists evs b l r,
        log w' = [] ++ evs ++ [EvTcpWrite b l false false r] /\
        (r = 0 \/ l < r)
  | Stuck => True
  end.
Proof.
  apply (WriteFull_on_any_transport (Pipe.broken 5) 4 5000 3 false false
           (Pipe.start [] tt)).
  vm_compute. split; discriminate.
Defined.

(** ** The threshold test *)

(** X5.  The total that [ReadvFull] and [WritevFull] compare with the
    threshold is the sum of the lengths modulo [2^64]. *)
Theorem accumulate_wraps (iov : list iovec) :
  TcpConn.accumulate iov = total_len iov mod SIZE_MOD.
Proof.
  unfold TcpConn.accumulate.
  assert (H : forall l acc,
             fold_left (fun s a => to_size (s + iov_len a)) l (to_size acc) =
             to_size (acc + total_len l)).
  { induction l as [| s rest IH]; intros acc; simpl.
    - now rewrite Z.add_0_r.
    - replace (to_size (to_size acc + iov_len s))
        with (to_size (acc + iov_len s))
        by (unfold to_size; now rewrite Z.add_mod_idemp_l by discriminate).
      rewrite IH. f_equal. lia. }
  specialize (H iov 0). rewrite to_size_small in H by (split; [lia | reflexivity]).
  exact H.
Qed.


(** ** The full transfers on a byte stream *)

Lemma store_short (m : mem) (p len : Z) (data : list byte) (a : Z) :
  ~ in_range p (Z.min len (Z.of_nat (length data))) a ->
  store m p len data a = m a.
Proof.
  unfold in_range, store. intros H.
  destruct ((p <=? a) && (a <? p + Z.min len (Z.of_nat (length data)))) eqn:E;
    [|reflexivity].
  apply andb_true_iff in E. destruct E as [E1 E2].
  apply Z.leb_le in E1. apply Z.ltb_lt in E2. lia.
Qed.

Lemma map_nth_seq (data : list byte) (d : byte) :
  map (fun i => nth i data d) (seq 0 (length data)) = data.
Proof.
  induction data as [| x rest IH]; [reflexivity|].
  cbn [length seq map nth]. f_equal.
  rewrite <- seq_shift, map_map. exact IH.
Qed.

Lemma load_store (m : mem) (p len : Z) (data : list byte) :
  Z.of_nat (length data) <= len ->
  load (store m p len data) p (Z.of_nat (length data)) = data.
Proof.
  intros Hlen. unfold load. rewrite Nat2Z.id.
  rewrite <- (map_nth_seq data x00) at 2.
  apply map_ext_in. intros i Hi. apply in_seq in Hi. unfold store.
  replace ((p <=? p + Z.of_nat i) &&
           (p + Z.of_nat i <? p + Z.min len (Z.of_nat (length data))))
    with true.
  - f_equal. lia.
  - symmetry. apply andb_true_iff.
    split; [apply Z.leb_le | apply Z.ltb_lt]; lia.
Qed.

Lemma firstn_load (m : mem) (p len : Z) (k : nat) :
  Z.of_nat k <= len ->
  firstn k (load m p len) = load m p (Z.of_nat k).
Proof.
  intros Hk.
  replace len with (Z.of_nat k + (len - Z.of_nat k)) at 1 by lia.
  rewrite load_app by lia.
  replace k with (length (load m p (Z.of_nat k)) + 0)%nat at 1
    by (rewrite load_length; lia).
  rewrite firstn_app_2. simpl. apply app_nil_r.
Qed.

Lemma firstn_then_more {A} (l : list A) :
  forall k j, firstn k l ++ firstn j (skipn k l) = firstn (k + j) l.
Proof.
  induction l as [| x rest IH]; intros k j.
  - now rewrite skipn_nil, !firstn_nil.
  - destruct k as [| k]; [reflexivity|]. simpl. now rewrite IH.
Qed.

Section OnStream.
Variable rt : tcp_runtime.
Variable q : tcpconn_t rt -> list byte.
Variables (pos : addr) (len : Z) (nt poll : bool).
Hypothesis len_range : 0 <= len <= SSIZE_MAX.

Lemma ReadFull_loop_stream :
  stream_reads rt q ->
  forall fuel n w,
    0 <= n <= len -> (Z.to_nat (len - n) < fuel)%nat ->
    exists w',
      TcpConn.ReadFull_loop rt fuel pos len n nt poll w =
      Done (if len - n <=? Z.of_nat (length (q (c_ w))) then len else 0) w' /\
      load (heap w') (pos + n)
           (Z.min (len - n) (Z.of_nat (length (q (c_ w))))) =
      firstn (Z.to_nat (len - n)) (q (c_ w)) /\
      (forall a,
          ~ in_range (pos + n)
                     (Z.min (len - n) (Z.of_nat (length (q (c_ w))))) a ->
          heap w' a = heap w a) /\
      q (c_ w') = skipn (Z.to_nat (len - n)) (q (c_ w)).
Proof.
  intros Hst. pose proof SSIZE_MAX_lt as Hmax.
  induction fuel as [| fuel IH]; intros n w Hn Hfuel; [lia|].
  destruct (Z.lt_ge_cases n len) as [Elt | Ege].
  - rewrite (ReadFull_loop_step rt pos len nt poll len_range) by lia.
    destruct (Hst (c_ w) (len - n) nt poll ltac:(lia))
      as (k & c' & Hop & Hk & Hkp & Hq & Hprog).
    rewrite Hop. cbv zeta.
    remember (q (c_ w)) as p eqn:Ep.
    assert (Hdata : length (firstn k p) = k) by (rewrite length_firstn; lia).
    destruct k as [| k'].
    + (* nothing pending: the stream is closed *)
      assert (Hp : p = []).
      { destruct p as [| x p']; [reflexivity|].
        exfalso. assert (0 < 0)%nat by (apply Hprog; discriminate). lia. }
      cbn [Z.of_nat Z.leb Z.compare].
      eexists. split; [|split; [|split]].
      * rewrite Hp. cbn [length Z.of_nat].
        replace (len - n <=? 0) with false by (symmetry; apply Z.leb_gt; lia).
        reflexivity.
      * cbn [heap]. rewrite Hp. cbn [length Z.of_nat].
        rewrite Z.min_r by lia. rewrite !firstn_nil. apply load_nonpos. lia.
      * cbn [heap]. intros a Ha. apply store_short. rewrite Hp. simpl.
        unfold in_range. lia.
      * cbn [c_]. rewrite Hq, Hp. rewrite !skipn_nil. reflexivity.
    + set (k := S k') in *.
      replace (Z.of_nat k <=? 0) with false by (symmetry; apply Z.leb_gt; lia).
      rewrite (to_size_small (n + Z.of_nat k)) by lia.
      match goal with
      | |- context [TcpConn.ReadFull_loop rt fuel pos len _ nt poll ?w1] =>
          destruct (IH (n + Z.of_nat k) w1) as (w' & Hrun & Hload & Hframe & Hq');
          [lia | lia |]
      end.
      cbn [c_ heap] in Hrun, Hload, Hframe, Hq'.
      rewrite Hq in Hrun, Hload, Hframe, Hq'.
      rewrite length_skipn in Hrun, Hload, Hframe.
      exists w'. split; [|split; [|split]].
      * rewrite Hrun. f_equal.
        destruct (len - n <=? Z.of_nat (length p)) eqn:E1;
          destruct (len - (n + Z.of_nat k) <=? Z.of_nat (length p - k)) eqn:E2;
          try reflexivity;
          [apply Z.leb_le in E1; apply Z.leb_gt in E2
          |apply Z.leb_gt in E1; apply Z.leb_le in E2]; lia.
      * replace (Z.min (len - n) (Z.of_nat (length p)))
          with (Z.of_nat k +
                Z.min (len - (n + Z.of_nat k)) (Z.of_nat (length p - k)))
          by lia.
        rewrite load_app by lia.
        replace (pos + n + Z.of_nat k) with (pos + (n + Z.of_nat k)) by lia.
        rewrite Hload.
        replace (Z.to_nat (len - n))
          with (k + Z.to_nat (len - (n + Z.of_nat k)))%nat by lia.
        rewrite <- firstn_then_more. f_equal.
        rewrite (load_ext _ (store (heap w) (pos + n) (len - n) (firstn k p))).
        -- pose proof (load_store (heap w) (pos + n) (len - n) (firstn k p))
             as Hls.
           rewrite Hdata in Hls. apply Hls. lia.
        -- intros a Ha. apply Hframe. unfold in_range in *. lia.
      * intros a Ha. rewrite Hframe by (unfold in_range in *; lia).
        apply store_short. rewrite Hdata. unfold in_range in *. lia.
      * rewrite Hq', skipn_skipn. f_equal. lia.
  - assert (n = len) by lia. subst n.
    cbn [TcpConn.ReadFull_loop]. rewrite Z.ltb_irrefl.
    unfold bind, assert. rewrite Z.eqb_refl. unfold mret.
    rewrite to_ssize_small by lia.
    exists w. rewrite Z.sub_diag. split; [|split; [|split]].
    + replace (0 <=? Z.of_nat (length (q (c_ w)))) with true
        by (symmetry; apply Z.leb_le; lia).
      reflexivity.
    + rewrite Z.min_l by lia. reflexivity.
    + reflexivity.
    + reflexivity.
Qed.

Lemma WriteFull_loop_stream :
  stream_writes rt q ->
  forall fuel n w,
    0 <= n <= len -> (Z.to_nat (len - n) < fuel)%nat ->
    exists w',
      TcpConn.WriteFull_loop rt fuel pos len n nt poll w = Done len w' /\
      heap w' = heap w /\
      q (c_ w') = q (c_ w) ++ load (heap w) (pos + n) (len - n).
Proof.
  intros Hst. pose proof SSIZE_MAX_lt as Hmax.
  induction fuel as [| fuel IH]; intros n w Hn Hfuel; [lia|].
  destruct (Z.lt_ge_cases n len) as [Elt | Ege].
  - rewrite (WriteFull_loop_step rt pos len nt poll len_range) by lia.
    assert (Hne : load (heap w) (pos + n) (len - n) <> []).
    { intros E. apply (f_equal (@length byte)) in E.
      rewrite load_length in E. simpl in E. lia. }
    destruct (Hst (c_ w) _ nt poll Hne) as (k & c' & Hop & Hk & Hq).
    rewrite load_length in Hk.
    rewrite Hop. cbv zeta.
    replace (Z.of_nat k <? 0) with false by (symmetry; apply Z.ltb_ge; lia).
    replace (0 <? Z.of_nat k) with true by (symmetry; apply Z.ltb_lt; lia).
    rewrite (to_size_small (n + Z.of_nat k)) by lia.
    match goal with
    | |- context [TcpConn.WriteFull_loop rt fuel pos len _ nt poll ?w1] =>
        destruct (IH (n + Z.of_nat k) w1) as (w' & Hrun & Hheap & Hq');
        [lia | lia |]
    end.
    cbn [c_ heap] in Hrun, Hheap, Hq'.
    exists w'. split; [exact Hrun|]. split; [exact Hheap|].
    rewrite Hq', Hq, <- app_assoc. f_equal.
    rewrite firstn_load by lia.
    pose proof (load_app (heap w) (pos + n) (Z.of_nat k)
                         (len - (n + Z.of_nat k)) ltac:(lia) ltac:(lia))
      as Happ.
    replace (Z.of_nat k + (len - (n + Z.of_nat k))) with (len - n) in Happ
      by lia.
    rewrite Happ. f_equal. f_equal. lia.
  - assert (n = len) by lia. subst n.
    cbn [TcpConn.WriteFull_loop]. rewrite Z.ltb_irrefl.
    unfold bind, assert. rewrite Z.eqb_refl. unfold mret.
    rewrite to_ssize_small by lia.
    exists w. split; [reflexivity|]. split; [reflexivity|].
    rewrite Z.sub_diag. rewrite load_nonpos by lia. now rewrite app_nil_r.
Qed.

End OnStream.


(** The loop-back pipe is such a stream, in both directions. *)
Lemma pipe_stream_reads : stream_reads Pipe.rt (fun c => c).
Proof.
  intros c len nt poll Hlen.
  change (tcp_read_op Pipe.rt c len nt poll) with (Pipe.read_op c len nt poll).
  unfold Pipe.read_op. cbv zeta.
  change (tcpconn_t Pipe.rt) with (list byte).
  set (k := Z.to_nat (Z.min len Pipe.chunk)).
  assert (Hk : (0 < k)%nat /\ Z.of_nat k <= len)
    by (unfold k, Pipe.chunk; lia).
  destruct (Nat.le_gt_cases k (length c)) as [Hle | Hgt].
  - exists k, (skipn k c). rewrite length_firstn.
    replace (Nat.min k (length c)) with k by lia.
    repeat split; auto; lia.
  - exists (length c), (skipn k c). rewrite length_firstn.
    replace (Nat.min k (length c)) with (length c) by lia.
    rewrite firstn_all, (firstn_all2 c) by lia.
    rewrite skipn_all, (skipn_all2 c) by lia.
    repeat split; auto; try lia.
    intros Hc. destruct c; [congruence | simpl; lia].
Qed.

Lemma pipe_stream_writes : stream_writes Pipe.rt (fun c => c).
Proof.
  intros c data nt poll Hdata.
  change (tcp_write_op Pipe.rt c data nt poll)
    with (Pipe.write_op c data nt poll).
  unfold Pipe.write_op. cbv zeta.
  change (tcpconn_t Pipe.rt) with (list byte).
  set (k := Z.to_nat Pipe.chunk).
  exists (length (firstn k data)), (c ++ firstn k data).
  split; [reflexivity|]. rewrite length_firstn. split.
  - destruct data; [congruence|]. unfold k, Pipe.chunk. simpl length. lia.
  - f_equal. destruct (Nat.le_gt_cases k (length data)) as [Hle | Hgt].
    + now replace (Nat.min k (length data)) with k by lia.
    + replace (Nat.min k (length data)) with (length data) by lia.
      now rewrite firstn_all, firstn_all2 by lia.
Qed.

(** X6.  On a receive side that is a byte stream, [ReadFull] returns
    [len] when [len] bytes or more are pending and 0 when the stream
    ends before; however the transport cuts the stream into calls, the
    buffer then holds the first [len] pending bytes in order (all of
    them, when the stream was shorter), those bytes are gone from the
    stream, and no other memory has changed. *)
Theorem ReadFull_from_stream
        (rt : tcp_runtime) (q : tcpconn_t rt -> list byte) (fuel : nat)
        (buf : addr) (len : Z) (nt poll : bool) (w : world (tcpconn_t rt)) :
  stream_reads rt q ->
  0 <= len <= SSIZE_MAX ->
  (Z.to_nat len < fuel)%nat ->
  exists w',
    TcpConn.ReadFull rt fuel buf len nt poll w =
    Done (if len <=? Z.of_nat (length (q (c_ w))) then len else 0) w' /\
    load (heap w') buf (Z.min len (Z.of_nat (length (q (c_ w))))) =
    firstn (Z.to_nat len) (q (c_ w)) /\
    (forall a,
        ~ in_range buf (Z.min len (Z.of_nat (length (q (c_ w))))) a ->
        heap w' a = heap w a) /\
    q (c_ w') = skipn (Z.to_nat len) (q (c_ w)).
Proof.
  intros Hst Hlen Hfuel.
  destruct (ReadFull_loop_stream rt q buf len nt poll Hlen Hst fuel 0 w)
    as (w' & Hrun & Hload & Hframe & Hq); [lia | now rewrite Z.sub_0_r |].
  rewrite Z.sub_0_r, Z.add_0_r in *.
  exists w'. repeat split; assumption.
Qed.

Lemma ReadFull_from_stream_witness :
  exists w',
    TcpConn.ReadFull Pipe.rt 11 5000 10 false false
      (Pipe.start [] [x61; x62; x63; x64; x65; x66; x67; x68; x69; x6a; x6b; x6c])
    = Done 10 w' /\
    load (heap w') 5000 10 = [x61; x62; x63; x64; x65; x66; x67; x68; x69; x6a] /\
    c_ w' = [x6b; x6c].
Proof.
  destruct (ReadFull_from_stream Pipe.rt (fun c => c) 11 5000 10 false false
              (Pipe.start [] [x61; x62; x63; x64; x65; x66; x67; x68; x69;
                              x6a; x6b; x6c]) pipe_stream_reads)
    as (w' & Hrun & Hload & _ & Hq).
  - vm_compute. split; discriminate.
  - vm_compute. lia.
  - exists w'. split; [exact Hrun|]. split; [exact Hload | exact Hq].
Defined.

(** X7.  On a send side that is a byte stream, [WriteFull] returns [len]
    and has handed the [len] bytes of the buffer to the transport, in
    order and once each, however the transport cuts them into calls;
    memory is as it was. *)
Theorem WriteFull_to_stream
        (rt : tcp_runtime) (q : tcpconn_t rt -> list byte) (fuel : nat)
        (buf : addr) (len : Z) (nt poll : bool) (w : world (tcpconn_t rt)) :
  stream_writes rt q ->
  0 <= len <= SSIZE_MAX ->
  (Z.to_nat len < fuel)%nat ->
  exists w',
    TcpConn.WriteFull rt fuel buf len nt poll w = Done len w' /\
    heap w' = heap w /\
    q (c_ w') = q (c_ w) ++ load (heap w) buf len.
Proof.
  intros Hst Hlen Hfuel.
  destruct (WriteFull_loop_stream rt q buf len nt poll Hlen Hst fuel 0 w)
    as (w' & Hrun & Hheap & Hq); [lia | now rewrite Z.sub_0_r |].
  rewrite Z.sub_0_r, Z.add_0_r in *.
  exists w'. repeat split; assumption.
Qed.

Lemma WriteFull_to_stream_witness :
  exists w',
    TcpConn.WriteFull Pipe.rt 11 5000 10 false false
      (Pipe.start [(5000, [x61; x62; x63; x64; x65; x66; x67; x68; x69; x6a])]
                  [x21])
    = Done 10 w' /\
    c_ w' = [x21; x61; x62; x63; x64; x65; x66; x67; x68; x69; x6a].
Proof.
  destruct (WriteFull_to_stream Pipe.rt (fun c => c) 11 5000 10 false false
              (Pipe.start [(5000, [x61; x62; x63; x64; x65; x66; x67; x68;
                                   x69; x6a])] [x21]) pipe_stream_writes)
    as (w' & Hrun & _ & Hq).
  - vm_compute. split; discriminate.
  - vm_compute. lia.
  - exists w'. split; [exact Hrun | exact Hq].
Defined.


(** ** The vectored transfers of a static span on a byte stream *)

Lemma load_iov_length (m : mem) (iov : list iovec) :
  wf_iov iov = true ->
  length (load_iov m iov) = Z.to_nat (total_len iov).
Proof.
  induction iov as [| s rest IH]; intros Hwf; [reflexivity|].
  split_wf Hwf Hs Hrest Hnn.
  unfold load_iov in *. cbn [map concat total_len].
  rewrite length_app, load_length, IH by assumption. lia.
Qed.

Lemma clear_of_sub (p len p' len' : Z) (iov : list iovec) :
  clear_of p len iov ->
  (forall a, in_range p' len' a -> in_range p len a) ->
  clear_of p' len' iov.
Proof. intros H Hsub s a Hin H1 H2. apply (H s a); auto. Qed.

Lemma scratch_clear (buf_ : addr) (l : list iovec) :
  segs_avoid buf_ TcpConn.kIOVCopyThresh l = true ->
  total_len l <= TcpConn.kIOVCopyThresh ->
  clear_of (buf_ + 0) (total_len l) l.
Proof.
  intros Hav Hsmall. apply segs_avoid_clear in Hav.
  eapply clear_of_sub; [exact Hav|]. unfold in_range. intros a Ha. lia.
Qed.

Section FixedOnStream.
Variable rt : tcp_runtime.
Variable q : tcpconn_t rt -> list byte.
Variable buf_ : addr.
Variables (fuel : nat) (l : list iovec) (nt poll : bool).
Hypothesis sizes : wf_iov l = true.
Hypothesis small : total_len l <= TcpConn.kIOVCopyThresh.
Hypothesis apart : segs_avoid buf_ TcpConn.kIOVCopyThresh l = true.
Hypothesis enough : (Z.to_nat (total_len l) < fuel)%nat.

Lemma small_total_range : 0 <= total_len l <= SSIZE_MAX.
Proof.
  pose proof (total_len_nonneg l sizes).
  assert (TcpConn.kIOVCopyThresh <= SSIZE_MAX) by (vm_compute; discriminate).
  lia.
Qed.

Lemma WritevFull_fixed_stream (w : world (tcpconn_t rt)) :
  stream_writes rt q ->
  exists w',
    TcpConn.WritevFull rt buf_ fuel (FixedSpan l) nt poll w =
    Done (total_len l) w' /\
    q (c_ w') = q (c_ w) ++ load_iov (heap w) l /\
    (forall a, ~ in_range buf_ TcpConn.kIOVCopyThresh a ->
               heap w' a = heap w a).
Proof.
  intros Hst. pose proof small_total_range as Hrange.
  pose proof thresh_lt as Ht.
  destruct l as [| a [| b r]] eqn:El.
  - (* no segment *)
    destruct fuel as [| f]; [simpl in enough; lia|].
    exists w. split; [reflexivity|]. split; [|reflexivity].
    unfold load_iov. simpl. now rewrite app_nil_r.
  - (* one segment: the scalar transfer *)
    cbn [total_len] in *. rewrite Z.add_0_r in *.
    destruct (WriteFull_loop_stream rt q (iov_base a) (iov_len a) nt poll
                Hrange Hst fuel 0 w) as (w' & Hrun & Hheap & Hq);
      [lia | now rewrite Z.sub_0_r |].
    rewrite Z.sub_0_r, Z.add_0_r in *.
    exists w'. split; [exact Hrun|]. split.
    + rewrite Hq. unfold load_iov. simpl. now rewrite app_nil_r.
    + intros x _. now rewrite Hheap.
  - (* two or more: through the scratch buffer *)
    rewrite <- El in *.
    assert (H2 : (2 <= length l)%nat) by (rewrite El; simpl; lia).
    rewrite (WritevFull_small_run rt buf_ fuel l nt poll H2 sizes small w).
    match goal with
    | |- context [TcpConn.WriteFull rt fuel buf_ (total_len l) nt poll ?w1] =>
        destruct (WriteFull_loop_stream rt q buf_ (total_len l) nt poll
                    Hrange Hst fuel 0 w1) as (w' & Hrun & Hheap & Hq);
        [lia | now rewrite Z.sub_0_r |]
    end.
    rewrite Z.sub_0_r, Z.add_0_r in *. cbn [heap c_] in *.
    exists w'. split; [exact Hrun|]. split.
    + rewrite Hq. f_equal.
      rewrite <- (gather_content buf_ l 0 (heap w)); auto; try lia.
      * now rewrite Z.add_0_r.
      * now apply scratch_clear.
    + intros x Hx. rewrite Hheap. apply gather_outside; auto; try lia.
      unfold in_range in *. lia.
Qed.

Hypothesis separate : pairwise_disjoint l = true.

Lemma ReadvFull_fixed_stream (w : world (tcpconn_t rt)) :
  stream_reads rt q ->
  total_len l <= Z.of_nat (length (q (c_ w))) ->
  exists w',
    TcpConn.ReadvFull rt buf_ fuel (FixedSpan l) nt poll w =
    Done (total_len l) w' /\
    load_iov (heap w') l = firstn (Z.to_nat (total_len l)) (q (c_ w)) /\
    q (c_ w') = skipn (Z.to_nat (total_len l)) (q (c_ w)) /\
    (forall a, ~ in_range buf_ TcpConn.kIOVCopyThresh a -> ~ in_segs l a ->
               heap w' a = heap w a).
Proof.
  intros Hst Hpending. pose proof small_total_range as Hrange.
  pose proof thresh_lt as Ht.
  destruct l as [| a [| b r]] eqn:El.
  - destruct fuel as [| f]; [simpl in enough; lia|].
    exists w. repeat split; reflexivity.
  - cbn [total_len] in *. rewrite Z.add_0_r in *.
    destruct (ReadFull_loop_stream rt q (iov_base a) (iov_len a) nt poll
                Hrange Hst fuel 0 w) as (w' & Hrun & Hload & Hframe & Hq);
      [lia | now rewrite Z.sub_0_r |].
    rewrite Z.sub_0_r, Z.add_0_r in *.
    replace (iov_len a <=? Z.of_nat (length (q (c_ w)))) with true in Hrun
      by (symmetry; apply Z.leb_le; lia).
    rewrite Z.min_l in Hload, Hframe by lia.
    exists w'. split; [exact Hrun|]. split; [|split; [exact Hq|]].
    + unfold load_iov. simpl. now rewrite app_nil_r.
    + intros x _ Hx. apply Hframe. intros Hin. apply Hx.
      exists a. split; [now left | exact Hin].
  - rewrite <- El in *.
    assert (H2 : (2 <= length l)%nat) by (rewrite El; simpl; lia).
    rewrite (ReadvFull_small_run rt buf_ fuel l nt poll H2 sizes small w).
    unfold TcpConn.ReadFull.
    destruct (ReadFull_loop_stream rt q buf_ (total_len l) nt poll
                Hrange Hst fuel 0 w) as (w1 & Hrun & Hload & Hframe & Hq);
      [lia | now rewrite Z.sub_0_r |].
    rewrite Z.sub_0_r, Z.add_0_r in *.
    replace (total_len l <=? Z.of_nat (length (q (c_ w)))) with true in Hrun
      by (symmetry; apply Z.leb_le; lia).
    rewrite Z.min_l in Hload, Hframe by lia.
    rewrite Hrun. eexists. split; [reflexivity|]. cbn [heap c_].
    split; [|split; [exact Hq|]].
    + rewrite scatter_content; auto; try lia.
      * now rewrite Z.add_0_r.
      * now apply scratch_clear.
    + intros x Hb Hs. rewrite scatter_outside.
      * apply Hframe. unfold in_range in *. lia.
      * intros s Hin Hr. apply Hs. now exists s.
Qed.

End FixedOnStream.


(** X8.  On a send side that is a byte stream, [WritevFull] of a span of
    static extent (none, one or several segments, at most 128 bytes in
    all) returns the total length and has handed the bytes of the
    segments to the transport in list order; outside the 128 bytes of
    [buf_] memory is as it was. *)
Theorem WritevFull_to_stream
        (rt : tcp_runtime) (q : tcpconn_t rt -> list byte) (buf_ : addr)
        (fuel : nat) (l : list iovec) (nt poll : bool)
        (w : world (tcpconn_t rt)) :
  stream_writes rt q ->
  wf_iov l = true ->
  total_len l <= TcpConn.kIOVCopyThresh ->
  segs_avoid buf_ TcpConn.kIOVCopyThresh l = true ->
  (Z.to_nat (total_len l) < fuel)%nat ->
  exists w',
    TcpConn.WritevFull rt buf_ fuel (FixedSpan l) nt poll w =
    Done (total_len l) w' /\
    q (c_ w') = q (c_ w) ++ load_iov (heap w) l /\
    (forall a, ~ in_range buf_ TcpConn.kIOVCopyThresh a ->
               heap w' a = heap w a).
Proof.
  intros Hst Hwf Hsmall Hav Hfuel.
  exact (WritevFull_fixed_stream rt q buf_ fuel l nt poll Hwf Hsmall Hav Hfuel
                                 w Hst).
Qed.

Lemma WritevFull_to_stream_witness :
  exists w',
    TcpConn.WritevFull Pipe.rt 0 20
      (FixedSpan [seg 5000 2; seg 6000 3; seg 7000 1]) false false
      (Pipe.start [(5000, [x61; x62]); (6000, [x63; x64; x65]); (7000, [x66])]
                  []) = Done 6 w' /\
    c_ w' = [x61; x62; x63; x64; x65; x66].
Proof.
  destruct (WritevFull_to_stream Pipe.rt (fun c => c) 0 20
              [seg 5000 2; seg 6000 3; seg 7000 1] false false
              (Pipe.start [(5000, [x61; x62]); (6000, [x63; x64; x65]);
                           (7000, [x66])] [])
              pipe_stream_writes eq_refl)
    as (w' & Hrun & Hq & _).
  - vm_compute. discriminate.
  - reflexivity.
  - vm_compute. lia.
  - exists w'. split; [exact Hrun | exact Hq].
Defined.

(** X9.  On a receive side that is a byte stream with enough bytes
    pending, [ReadvFull] of a span of static extent (at most 128 bytes
    in all, segments apart from one another and from [buf_]) returns the
    total length; the segments, read in list order, hold the first
    pending bytes, which are gone from the stream; memory outside the
    segments and [buf_] is as it was. *)
Theorem ReadvFull_from_stream
        (rt : tcp_runtime) (q : tcpconn_t rt -> list byte) (buf_ : addr)
        (fuel : nat) (l : list iovec) (nt poll : bool)
        (w : world (tcpconn_t rt)) :
  stream_reads rt q ->
  wf_iov l = true ->
  total_len l <= TcpConn.kIOVCopyThresh ->
  segs_avoid buf_ TcpConn.kIOVCopyThresh l = true ->
  pairwise_disjoint l = true ->
  total_len l <= Z.of_nat (length (q (c_ w))) ->
  (Z.to_nat (total_len l) < fuel)%nat ->
  exists w',
    TcpConn.ReadvFull rt buf_ fuel (FixedSpan l) nt poll w =
    Done (total_len l) w' /\
    load_iov (heap w') l = firstn (Z.to_nat (total_len l)) (q (c_ w)) /\
    q (c_ w') = skipn (Z.to_nat (total_len l)) (q (c_ w)) /\
    (forall a, ~ in_range buf_ TcpConn.kIOVCopyThresh a -> ~ in_segs l a ->
               heap w' a = heap w a).
Proof.
  intros Hst Hwf Hsmall Hav Hpw Hpending Hfuel.
  exact (ReadvFull_fixed_stream rt q buf_ fuel l nt poll Hwf Hsmall Hav Hfuel
                                Hpw w Hst Hpending).
Qed.

Lemma ReadvFull_from_stream_witness :
  exists w',
    TcpConn.ReadvFull Pipe.rt 0 20
      (FixedSpan [seg 5000 2; seg 6000 3; seg 7000 1]) false false
      (Pipe.start [] [x61; x62; x63; x64; x65; x66; x67]) = Done 6 w' /\
    load_iov (heap w') [seg 5000 2; seg 6000 3; seg 7000 1] =
    [x61; x62; x63; x64; x65; x66] /\
    c_ w' = [x67].
Proof.
  destruct (ReadvFull_from_stream Pipe.rt (fun c => c) 0 20
              [seg 5000 2; seg 6000 3; seg 7000 1] false false
              (Pipe.start [] [x61; x62; x63; x64; x65; x66; x67])
              pipe_stream_reads eq_refl)
    as (w' & Hrun & Hload & Hq & _).
  - vm_compute. discriminate.
  - reflexivity.
  - reflexivity.
  - vm_compute. discriminate.
  - vm_compute. lia.
  - exists w'. split; [exact Hrun|]. split; [exact Hload | exact Hq].
Defined.

(** X10.  Over a connection that loops back (what is sent is what is
    pending, and nothing is pending at the start), [WritevFull] of the
    segments [src] followed by [ReadvFull] into the segments [dst], both
    spans of static extent with the same total of at most 128 bytes,
    both return that total and leave in [dst] the bytes [src] held,
    however the two lists cut the total into segments; the connection
    is empty again. *)
Theorem loopback_roundtrip
        (rt : tcp_runtime) (q : tcpconn_t rt -> list byte) (buf_ : addr)
        (fuel : nat) (src dst : list iovec) (nt poll : bool)
        (w : world (tcpconn_t rt)) :
  stream_reads rt q ->
  stream_writes rt q ->
  q (c_ w) = [] ->
  wf_iov src = true ->
  wf_iov dst = true ->
  total_len dst = total_len src ->
  total_len src <= TcpConn.kIOVCopyThresh ->
  segs_avoid buf_ TcpConn.kIOVCopyThresh src = true ->
  segs_avoid buf_ TcpConn.kIOVCopyThresh dst = true ->
  pairwise_disjoint dst = true ->
  (Z.to_nat (total_len src) < fuel)%nat ->
  exists w1 w2,
    TcpConn.WritevFull rt buf_ fuel (FixedSpan src) nt poll w =
    Done (total_len src) w1 /\
    TcpConn.ReadvFull rt buf_ fuel (FixedSpan dst) nt poll w1 =
    Done (total_len src) w2 /\
    load_iov (heap w2) dst = load_iov (heap w) src /\
    q (c_ w2) = [].
Proof.
  intros Hrd Hwr Hq0 Hws Hwd Htot Hsmall Has Had Hpw Hfuel.
  destruct (WritevFull_fixed_stream rt q buf_ fuel src nt poll Hws Hsmall Has
                                    Hfuel w Hwr) as (w1 & Hrun1 & Hq1 & _).
  rewrite Hq0 in Hq1. cbn [app] in Hq1.
  pose proof (load_iov_length (heap w) src Hws) as Hlen.
  pose proof (total_len_nonneg src Hws) as Hnn.
  destruct (ReadvFull_fixed_stream rt q buf_ fuel dst nt poll Hwd
              ltac:(lia) Had ltac:(lia) Hpw w1 Hrd)
    as (w2 & Hrun2 & Hload & Hq2 & _).
  { rewrite Hq1, Hlen. lia. }
  rewrite Htot in Hrun2, Hload, Hq2. rewrite Hq1 in Hload, Hq2.
  exists w1, w2. split; [exact Hrun1|]. split; [exact Hrun2|]. split.
  - rewrite Hload. apply firstn_all2. lia.
  - rewrite Hq2. apply skipn_all2. lia.
Qed.

Lemma loopback_roundtrip_witness :
  exists w1 w2,
    TcpConn.WritevFull Pipe.rt 0 20
      (FixedSpan [seg 5000 3; seg 5100 1; seg 5200 4; seg 5300 1; seg 5400 5])
      true false
      (Pipe.start [(5000, [x61; x62; x63]); (5100, [x64]);
                   (5200, [x65; x66; x67; x68]); (5300, [x69]);
                   (5400, [x6a; x6b; x6c; x6d; x6e])] []) = Done 14 w1 /\
    TcpConn.ReadvFull Pipe.rt 0 20 (FixedSpan [seg 9000 14]) true false w1 =
    Done 14 w2 /\
    load (heap w2) 9000 14 =
    [x61; x62; x63; x64; x65; x66; x67; x68; x69; x6a; x6b; x6c; x6d; x6e].
Proof.
  destruct (loopback_roundtrip Pipe.rt (fun c => c) 0 20
              [seg 5000 3; seg 5100 1; seg 5200 4; seg 5300 1; seg 5400 5]
              [seg 9000 14] true false
              (Pipe.start [(5000, [x61; x62; x63]); (5100, [x64]);
                           (5200, [x65; x66; x67; x68]); (5300, [x69]);
                           (5400, [x6a; x6b; x6c; x6d; x6e])] [])
              pipe_stream_reads pipe_stream_writes eq_refl eq_refl eq_refl
              eq_refl)
    as (w1 & w2 & Hrun1 & Hrun2 & Hload & _).
  - vm_compute. discriminate.
  - reflexivity.
  - reflexivity.
  - reflexivity.
  - vm_compute. lia.
  - exists w1, w2. split; [exact Hrun1|]. split; [exact Hrun2|].
    etransitivity; [|exact Hload].
    symmetry. exact (app_nil_r (load (heap w2) 9000 14)).
Defined.


(** ** More on scatter and gather *)

(** X11.  A scatter of a buffer into segments followed by a gather of
    the same segments gives the buffer back: its first [total_len]
    bytes are as before, and the segments hold them in list order.
    (The segments overlap neither one another nor those bytes.) *)
Theorem scatter_then_gather_restores
        {C : Type} (buf : addr) (l : list iovec) (w : world C) :
  wf_iov l = true ->
  total_len l < SIZE_MOD ->
  segs_avoid buf (total_len l) l = true ->
  pairwise_disjoint l = true ->
  exists w1 w2,
    detail.scatter_to buf l w = Done tt w1 /\
    detail.gather_from buf l w1 = Done tt w2 /\
    load (heap w2) buf (total_len l) = load (heap w) buf (total_len l) /\
    load_iov (heap w2) l = load (heap w) buf (total_len l) /\
    c_ w2 = c_ w.
Proof.
  intros Hwf Hlt Hav Hpw.
  assert (Hclr : clear_of (buf + 0) (total_len l) l)
    by (rewrite Z.add_0_r; now apply segs_avoid_clear).
  unfold detail.scatter_to, detail.gather_from.
  rewrite general_scatter_gather_run.
  eexists. eexists. split; [reflexivity|].
  rewrite general_scatter_gather_run. split; [reflexivity|].
  cbn [heap c_].
  assert (Hs : load_iov (copy_mem true buf 0 l (heap w)) l =
               load (heap w) buf (total_len l)).
  { rewrite scatter_content; auto; try lia. now rewrite Z.add_0_r. }
  assert (Hg : load (copy_mem false buf 0 l (copy_mem true buf 0 l (heap w)))
                    buf (total_len l) =
               load (heap w) buf (total_len l)).
  { rewrite <- Hs.
    rewrite <- (gather_content buf l 0 (copy_mem true buf 0 l (heap w)));
      auto; try lia.
    now rewrite Z.add_0_r. }
  split; [exact Hg|]. split; [|reflexivity].
  rewrite <- Hs. apply load_iov_ext. intros s a Hin Ha.
  apply gather_outside; auto; try lia.
  intros Hb. exact (Hclr s a Hin Ha Hb).
Qed.

Lemma scatter_then_gather_restores_witness :
  exists w1 w2 : world unit,
    detail.scatter_to 0 [seg 5000 2; seg 6000 3]
                      (Pipe.start [(0, [x61; x62; x63; x64; x65])] tt)
    = Done tt w1 /\
    detail.gather_from 0 [seg 5000 2; seg 6000 3] w1 = Done tt w2 /\
    load (heap w2) 0 5 = [x61; x62; x63; x64; x65] /\
    load_iov (heap w2) [seg 5000 2; seg 6000 3] = [x61; x62; x63; x64; x65].
Proof.
  destruct (scatter_then_gather_restores 0 [seg 5000 2; seg 6000 3]
              (Pipe.start [(0, [x61; x62; x63; x64; x65])] tt)
              eq_refl eq_refl eq_refl eq_refl)
    as (w1 & w2 & H1 & H2 & Hb & Hs & _).
  exists w1, w2. split; [exact H1|]. split; [exact H2|].
  split; [exact Hb | exact Hs].
Defined.

(** ** The small-total path and memory *)

(** X12.  On the small-total path, whatever the transport returns,
    [ReadvFull] changes no memory outside the caller's segments and the
    first [total_len] bytes (at most 128) of [buf_], and [WritevFull]
    none outside those bytes of [buf_]: the scratch buffer is not
    overrun and the segments of a write are left as they are. *)
Theorem small_total_path_stays_in_bounds
        (rt : tcp_runtime) (buf_ : addr) (fuel : nat) (l : list iovec)
        (nt poll : bool) (w w' : world (tcpconn_t rt)) :
  (2 <= length l)%nat ->
  wf_iov l = true ->
  total_len l <= TcpConn.kIOVCopyThresh ->
  (final (TcpConn.ReadvFull rt buf_ fuel (FixedSpan l) nt poll w) = Some w' ->
   forall a, ~ in_range buf_ (total_len l) a -> ~ in_segs l a ->
             heap w' a = heap w a) /\
  (final (TcpConn.WritevFull rt buf_ fuel (FixedSpan l) nt poll w) = Some w' ->
   forall a, ~ in_range buf_ (total_len l) a -> heap w' a = heap w a).
Proof.
  intros H2 Hwf Hsmall. pose proof thresh_lt as Ht.
  pose proof (total_len_nonneg l Hwf) as Hnn.
  split.
  - rewrite (ReadvFull_small_run rt buf_ fuel l nt poll H2 Hwf Hsmall w).
    intros Hfin a Hb Hs.
    assert (Hread : forall w1,
               final (TcpConn.ReadFull rt fuel buf_ (total_len l) nt poll w)
               = Some w1 -> heap w1 a = heap w a).
    { intros w1 H1.
      destruct (ReadFull_loop_frame rt buf_ (total_len l) nt poll
                  ltac:(lia) fuel 0 w w1 ltac:(lia) H1) as [Hframe _].
      now apply Hframe. }
    destruct (TcpConn.ReadFull rt fuel buf_ (total_len l) nt poll w)
      as [r w1 | w1 |]; simpl in Hfin; try discriminate;
      injection Hfin as <-.
    + cbn [heap]. rewrite scatter_outside.
      * now apply Hread.
      * intros s Hin Hr. apply Hs. now exists s.
    + now apply Hread.
  - rewrite (WritevFull_small_run rt buf_ fuel l nt poll H2 Hwf Hsmall w).
    intros Hfin a Hb.
    destruct (WriteFull_loop_frame rt buf_ (total_len l) nt poll fuel 0 _ w'
                                   Hfin) as [Hframe _].
    rewrite Hframe by tauto. cbn [heap].
    apply gather_outside; auto; try lia. now rewrite Z.add_0_r.
Qed.

Lemma small_total_path_stays_in_bounds_witness :
  exists w',
    final (TcpConn.ReadvFull (Pipe.broken 300) 0 20
             (FixedSpan [seg 5000 60; seg 6000 60]) false false
             (Pipe.start [(120, [x61; x62]); (5060, [x63])] tt)) = Some w' /\
    heap w' 120 = x61 /\ heap w' 5060 = x63.
Proof.
  destruct (final (TcpConn.ReadvFull (Pipe.broken 300) 0 20
                     (FixedSpan [seg 5000 60; seg 6000 60]) false false
                     (Pipe.start [(120, [x61; x62]); (5060, [x63])] tt)))
    as [w' |] eqn:E; [|vm_compute in E; discriminate E].
  exists w'. split; [reflexivity|].
  assert (H2 : (2 <= length [seg 5000 60; seg 6000 60])%nat) by (simpl; lia).
  assert (Hs : total_len [seg 5000 60; seg 6000 60] <= TcpConn.kIOVCopyThresh)
    by (vm_compute; discriminate).
  destruct (small_total_path_stays_in_bounds (Pipe.broken 300) 0 20
              [seg 5000 60; seg 6000 60] false false
              (Pipe.start [(120, [x61; x62]); (5060, [x63])] tt) w'
              H2 eq_refl Hs) as [Hr _].
  assert (Hout : forall a, a = 120 \/ a = 5060 ->
             ~ in_range 0 (total_len [seg 5000 60; seg 6000 60]) a /\
             ~ in_segs [seg 5000 60; seg 6000 60] a).
  { intros a Ha. split.
    - unfold in_range. simpl. lia.
    - intros (s & Hin & Hr'). simpl in Hin.
      destruct Hin as [<- | [<- | []]]; unfold in_range in Hr';
        simpl in Hr'; lia. }
  split.
  - rewrite (Hr E 120); [reflexivity | apply Hout; lia | apply Hout; lia].
  - rewrite (Hr E 5060); [reflexivity | apply Hout; lia | apply Hout; lia].
Defined.


(** ** A vectored transfer of no byte *)

Lemma zero_total_lens (l : list iovec) :
  wf_iov l = true -> total_len l = 0 -> Forall (fun s => iov_len s = 0) l.
Proof.
  induction l as [| s rest IH]; intros Hwf Htot; [constructor|].
  split_wf Hwf Hs Hrest Hnn. simpl in Htot.
  constructor; [lia | apply IH; [assumption | lia]].
Qed.

Lemma copy_mem_zero (Scatter : bool) (buf : addr) (l : list iovec) :
  Forall (fun s => iov_len s = 0) l ->
  forall offset m a, copy_mem Scatter buf offset l m a = m a.
Proof.
  induction 1 as [| s rest Hs _ IH]; intros offset m a; simpl; [reflexivity|].
  rewrite IH.
  destruct Scatter; apply mem_copy_outside; unfold in_range; lia.
Qed.

Lemma copy_log_only_memcpy (Scatter : bool) (buf : addr) (l : list iovec) :
  forall offset, only_memcpy (copy_log Scatter buf offset l).
Proof.
  induction l as [| s rest IH]; intros offset; simpl; [constructor|].
  constructor; [now destruct Scatter | apply IH].
Qed.

(** X13.  A [ReadvFull] or [WritevFull] of a span of static extent whose
    segments are all empty (or that has no segment) returns 0 without a
    call of the transport: the connection and every byte of memory are
    as before, and the only calls made are [memcpy]s of no byte. *)
Theorem vectored_transfer_of_no_byte
        (rt : tcp_runtime) (buf_ : addr) (fuel : nat) (l : list iovec)
        (nt poll : bool) (w : world (tcpconn_t rt)) :
  wf_iov l = true ->
  total_len l = 0 ->
  exists w1 w2,
    TcpConn.ReadvFull rt buf_ (S fuel) (FixedSpan l) nt poll w = Done 0 w1 /\
    TcpConn.WritevFull rt buf_ (S fuel) (FixedSpan l) nt poll w = Done 0 w2 /\
    c_ w1 = c_ w /\ c_ w2 = c_ w /\
    (forall a, heap w1 a = heap w a /\ heap w2 a = heap w a) /\
    exists evs1 evs2,
      log w1 = log w ++ evs1 /\ log w2 = log w ++ evs2 /\
      only_memcpy evs1 /\ only_memcpy evs2.
Proof.
  intros Hwf Htot. pose proof thresh_lt as Ht.
  pose proof (zero_total_lens l Hwf Htot) as Hz.
  destruct l as [| a [| b r]] eqn:El.
  - exists w, w. repeat split.
    exists [], []. rewrite app_nil_r. repeat split; constructor.
  - cbn [total_len] in Htot. rewrite Z.add_0_r in Htot.
    cbn [TcpConn.ReadvFull TcpConn.WritevFull]. rewrite Htot.
    exists w, w. repeat split.
    exists [], []. rewrite app_nil_r. repeat split; constructor.
  - rewrite <- El in *.
    assert (H2 : (2 <= length l)%nat) by (rewrite El; simpl; lia).
    assert (Hsmall : total_len l <= TcpConn.kIOVCopyThresh)
      by (rewrite Htot; discriminate).
    rewrite (ReadvFull_small_run rt buf_ (S fuel) l nt poll H2 Hwf Hsmall w).
    rewrite (WritevFull_small_run rt buf_ (S fuel) l nt poll H2 Hwf Hsmall w).
    rewrite Htot.
    change (TcpConn.ReadFull rt (S fuel) buf_ 0 nt poll w) with (Done 0 w).
    eexists. eexists. split; [reflexivity|]. split; [reflexivity|].
    cbn [heap c_ log]. split; [reflexivity|]. split; [reflexivity|]. split.
    + intros x. split; now apply copy_mem_zero.
    + exists (scatter_events buf_ l), (gather_events buf_ l).
      split; [reflexivity|]. split; [reflexivity|].
      rewrite <- scatter_log, <- gather_log by (auto; lia).
      split; apply copy_log_only_memcpy.
Qed.

Lemma vectored_transfer_of_no_byte_witness :
  exists w1 w2,
    TcpConn.ReadvFull Pipe.rt 0 1 (FixedSpan [seg 5000 0; seg 6000 0])
                      false false (Pipe.start [] [x61]) = Done 0 w1 /\
    TcpConn.WritevFull Pipe.rt 0 1 (FixedSpan [seg 5000 0; seg 6000 0])
                       false false (Pipe.start [] [x61]) = Done 0 w2 /\
    c_ w1 = [x61] /\ c_ w2 = [x61].
Proof.
  destruct (vectored_transfer_of_no_byte Pipe.rt 0 0 [seg 5000 0; seg 6000 0]
              false false (Pipe.start [] [x61]) eq_refl eq_refl)
    as (w1 & w2 & H1 & H2 & Hc1 & Hc2 & _).
  exists w1, w2. repeat split; assumption.
Defined.


(** ** The return value of the vectored transfers *)

(** X14.  Whatever the transport returns, a [ReadvFull] of a span of
    static extent with at most 128 bytes in all that returns, returns
    the total length or a zero-or-negative value, and a [WritevFull]
    the total length or a negative value. *)
Theorem vectored_result_on_any_transport
        (rt : tcp_runtime) (buf_ : addr) (fuel : nat) (l : list iovec)
        (nt poll : bool) (w : world (tcpconn_t rt)) :
  wf_iov l = true ->
  total_len l <= TcpConn.kIOVCopyThresh ->
  match TcpConn.ReadvFull rt buf_ fuel (FixedSpan l) nt poll w with
  | Done r _ => r = total_len l \/ r <= 0
  | _ => True
  end /\
  match TcpConn.WritevFull rt buf_ fuel (FixedSpan l) nt poll w with
  | Done r _ => r = total_len l \/ r < 0
  | _ => True
  end.
Proof.
  intros Hwf Hsmall. pose proof thresh_lt as Ht.
  enough (Hall :
            (forall r w',
                TcpConn.ReadvFull rt buf_ fuel (FixedSpan l) nt poll w
                = Done r w' -> r = total_len l \/ r <= 0) /\
            (forall r w',
                TcpConn.WritevFull rt buf_ fuel (FixedSpan l) nt poll w
                = Done r w' -> r = total_len l \/ r < 0)).
  { destruct Hall as [Hr Hw]. split.
    - destruct (TcpConn.ReadvFull rt buf_ fuel (FixedSpan l) nt poll w)
        as [r w' | |]; [eapply Hr; reflexivity | exact I | exact I].
    - destruct (TcpConn.WritevFull rt buf_ fuel (FixedSpan l) nt poll w)
        as [r w' | |]; [eapply Hw; reflexivity | exact I | exact I]. }
  pose proof (total_len_nonneg l Hwf) as Hnn.
  assert (Hmax : TcpConn.kIOVCopyThresh <= SSIZE_MAX)
    by (vm_compute; discriminate).
  assert (Hread : forall buf w0 r w',
             TcpConn.ReadFull rt fuel buf (total_len l) nt poll w0 = Done r w' ->
             r = total_len l \/ r <= 0).
  { intros buf w0 r w' Hrun.
    pose proof (ReadFull_loop_any rt buf (total_len l) nt poll ltac:(lia)
                                  fuel 0 w0 ltac:(split; [lia | reflexivity]))
      as H.
    unfold TcpConn.ReadFull in Hrun. rewrite Hrun in H.
    destruct H as (_ & _ & _ & [He | (Hle & _)]); [left | now right].
    rewrite He. apply to_ssize_small. lia. }
  assert (Hwrite : forall buf w0 r w',
             TcpConn.WriteFull rt fuel buf (total_len l) nt poll w0 = Done r w' ->
             r = total_len l \/ r < 0).
  { intros buf w0 r w' Hrun.
    pose proof (WriteFull_loop_any rt buf (total_len l) nt poll ltac:(lia)
                                   fuel 0 w0 ltac:(split; [lia | reflexivity]))
      as H.
    unfold TcpConn.WriteFull in Hrun. rewrite Hrun in H.
    destruct H as (_ & _ & _ & [He | (Hle & _)]); [left | now right].
    rewrite He. apply to_ssize_small. lia. }
  destruct l as [| a [| b r0]] eqn:El.
  - split; intros r w' Hrun.
    + unfold TcpConn.ReadvFull, bind in Hrun.
      cbn [TcpConn.accumulate fold_left Z.leb Z.compare TcpConn.kIOVCopyThresh]
        in Hrun.
      destruct (TcpConn.ReadFull rt fuel buf_ 0 nt poll w) as [r1 w1 | |] eqn:E;
        try discriminate.
      injection Hrun as <- _. exact (Hread buf_ w r1 w1 E).
    + unfold TcpConn.WritevFull, bind in Hrun.
      cbn [TcpConn.accumulate fold_left Z.leb Z.compare TcpConn.kIOVCopyThresh]
        in Hrun.
      exact (Hwrite buf_ _ r w' Hrun).
  - cbn [total_len] in *. rewrite Z.add_0_r in *.
    split; intros r w' Hrun.
    + exact (Hread _ w r w' Hrun).
    + exact (Hwrite _ w r w' Hrun).
  - rewrite <- El in *.
    assert (H2 : (2 <= length l)%nat) by (rewrite El; simpl; lia).
    split; intros r w' Hrun.
    + rewrite (ReadvFull_small_run rt buf_ fuel l nt poll H2 Hwf Hsmall w)
        in Hrun.
      destruct (TcpConn.ReadFull rt fuel buf_ (total_len l) nt poll w)
        as [r1 w1 | |] eqn:E; try discriminate.
      injection Hrun as <- _. exact (Hread buf_ w r1 w1 E).
    + rewrite (WritevFull_small_run rt buf_ fuel l nt poll H2 Hwf Hsmall w)
        in Hrun.
      exact (Hwrite buf_ _ r w' Hrun).
Qed.

Lemma vectored_result_on_any_transport_witness :
  match TcpConn.ReadvFull (Pipe.broken (-104)) 0 20
          (FixedSpan [seg 5000 2; seg 6000 3]) false false (Pipe.start [] tt)
  with
  | Done r _ => r = 5 \/ r <= 0
  | _ => True
  end /\
  match TcpConn.WritevFull (Pipe.broken (-104)) 0 20
          (FixedSpan [seg 5000 2; seg 6000 3]) false false (Pipe.start [] tt)
  with
  | Done r _ => r = 5 \/ r < 0
  | _ => True
  end.
Proof.
  apply (vectored_result_on_any_transport (Pipe.broken (-104)) 0 20
           [seg 5000 2; seg 6000 3] false false (Pipe.start [] tt) eq_refl).
  vm_compute. discriminate.
Defined.

(** ** The recursion of general_scatter_gather *)

(** X15.  Scatter and gather go through a list of segments piece by
    piece: the copies for [l1 ++ l2] from an offset are the copies for
    [l1] from that offset followed by the copies for [l2] from the
    offset advanced by the lengths of [l1] (modulo [2^64]). *)
Theorem general_scatter_gather_app
        {C : Type} (Scatter : bool) (buf : addr) (l1 l2 : list iovec)
        (offset : Z) (w : world C) :
  0 <= offset < SIZE_MOD ->
  detail.general_scatter_gather Scatter buf offset (l1 ++ l2) w =
  (detail.general_scatter_gather Scatter buf offset l1 ;;;
   detail.general_scatter_gather Scatter buf
     (to_size (offset + total_len l1)) l2) w.
Proof.
  revert offset w. induction l1 as [| s rest IH]; intros offset w Hoff.
  - cbn [app total_len detail.general_scatter_gather]. unfold bind, mret.
    now rewrite Z.add_0_r, to_size_small.
  - cbn [app total_len detail.general_scatter_gather].
    replace (to_size (offset + (iov_len s + total_len rest)))
      with (to_size (to_size (offset + iov_len s) + total_len rest))
      by (unfold to_size; rewrite Z.add_mod_idemp_l by discriminate;
          f_equal; lia).
    destruct Scatter; unfold bind, memcpy;
      rewrite IH by apply to_size_range; reflexivity.
Qed.

Lemma general_scatter_gather_app_witness :
  detail.general_scatter_gather true 0 0
    ([seg 5000 2] ++ [seg 6000 3; seg 7000 1])
    (Pipe.start [(0, [x61; x62; x63; x64; x65; x66])] tt) =
  (detail.general_scatter_gather true 0 0 [seg 5000 2] ;;;
   detail.general_scatter_gather true 0 (to_size (0 + total_len [seg 5000 2]))
     [seg 6000 3; seg 7000 1])
    (Pipe.start [(0, [x61; x62; x63; x64; x65; x66])] tt).
Proof.
  apply (general_scatter_gather_app true 0 [seg 5000 2]
           [seg 6000 3; seg 7000 1] 0
           (Pipe.start [(0, [x61; x62; x63; x64; x65; x66])] tt)).
  vm_compute. split; [discriminate | reflexivity].
Defined.
